(** * BoxFramework: geometry, indexing and the sliding-window cache

    A shallow embedding of the indexing core of the structured-grid
    BoxFramework ([IntVect.H], [Box.H], [BoxIterator.H], [BaseFab.H],
    [CudaFab.H]) together with the properties its specification states
    about it and further properties read off the code.

    Conventions of the embedding.
    - The C++ [int] is modelled by [Z].  Signed overflow is undefined
      behaviour in C++, so the model describes the executions in which no
      intermediate value leaves the range of [int]; [/] and [%] are the
      truncating [Z.quot] and [Z.rem].  Where a property is about every
      value of an [int] argument, the range is part of the model: the
      definitions named [..._checked], and [IntVect.div], stop with
      [Fault IntOverflow] at the first result that is not an [int].
    - A pointer [T*] into a buffer is the integer index of the element it
      points at; memory is a map from indices to elements.
    - [CH_assert] is modelled as in a debug build: a failing assertion stops
      the computation with [Fault AssertFailed].  An access outside an array
      that no assertion stops is [Fault OutOfBounds].
    - A lane group (CUDA thread block) runs between two barriers as the
      sequential composition of its lanes, lane 0 first.  [threadIdx.x] is the
      lane number and [blockDim.x] the group width.  Between two barriers
      every lane writes its own table entry, its own cursor and the cells of
      its own cursor only, and the reload leaves the same cache whatever
      the order of the lanes (shown with the properties of the reload). *)

From Stdlib Require Import ZArith List Lia Bool Permutation.
Import ListNotations.

Local Open Scope Z_scope.

(* ================================================================== *)
(** ** Outcomes of a call *)

Inductive fault : Type :=
| AssertFailed
| OutOfBounds
| DivideByZero
| IntOverflow.

Inductive Res (A : Type) : Type :=
| Ok (a : A)
| Fault (f : fault).

Arguments Ok {A} a.
Arguments Fault {A} f.

Definition bind {A B : Type} (c : Res A) (k : A -> Res B) : Res B :=
  match c with
  | Ok a => k a
  | Fault f => Fault f
  end.

Declare Scope res_scope.
Delimit Scope res_scope with res.
Notation "x <- c ;; k" := (bind c (fun x => k))
  (at level 61, c at next level, right associativity) : res_scope.
Notation "c ;;; k" := (bind c (fun _ => k))
  (at level 61, right associativity) : res_scope.
Local Open Scope res_scope.

Definition CH_assert (b : bool) : Res unit :=
  if b then Ok tt else Fault AssertFailed.

(** [a / b] and [a % b] on [int]: truncating, and trapping on a zero
    divisor. *)
Definition int_div (a b : Z) : Res Z :=
  if b =? 0 then Fault DivideByZero else Ok (Z.quot a b).

Definition int_rem (a b : Z) : Res Z :=
  if b =? 0 then Fault DivideByZero else Ok (Z.rem a b).

(** The range of [int]: 32 bits in two's complement, as on the devices
    and hosts the code is built for. *)
Definition INT_MIN : Z := - 2 ^ 31.
Definition INT_MAX : Z := 2 ^ 31 - 1.

Definition in_int (x : Z) : bool := (INT_MIN <=? x) && (x <=? INT_MAX).

(** The result of an arithmetic operation on [int]: a result outside the
    range is signed overflow, which is undefined behaviour; the model stops
    there. *)
Definition int_result (x : Z) : Res Z :=
  if in_int x then Ok x else Fault IntOverflow.

(** [a / b] and [a % b] with the range: [INT_MIN / -1] is not an [int],
    and [a % b] is defined where [a / b] is. *)
Definition int_div_checked (a b : Z) : Res Z :=
  q <- int_div a b ;;
  int_result q.

Definition int_rem_checked (a b : Z) : Res Z :=
  int_div_checked a b ;;;
  int_rem a b.

(* ================================================================== *)
(** ** Parameters.H *)

(** Modelled from the spec: [Parameters.H] is not part of the sources.  The
    spec fixes the dimensionality at build time (2 or 3); [Box::grow(int)]
    builds [IntVect(1,1,1)], which only compiles for three dimensions, so
    the embedding is the three-dimensional build.  [D_TERM(a,b,c)] and
    [D_DECL(a,b,c)] expand to their three arguments in order and
    [D_INVTERM(a,b,c)] to the same three in reverse order. *)
Definition g_SpaceDim : Z := 3.

(* ================================================================== *)
(** ** IntVect.H *)

Module IntVect.

Record t : Type := mk { iv0 : Z; iv1 : Z; iv2 : Z }.

(** An index into [m_data[g_SpaceDim]] that lies inside the array. *)
Definition axis_ok (a_idx : Z) : bool :=
  (0 <=? a_idx) && (a_idx <? g_SpaceDim).

Definition nth (v : t) (a_idx : Z) : Z :=
  if a_idx =? 0 then iv0 v else if a_idx =? 1 then iv1 v else iv2 v.

Definition upd (v : t) (a_idx x : Z) : t :=
  if a_idx =? 0 then mk x (iv1 v) (iv2 v)
  else if a_idx =? 1 then mk (iv0 v) x (iv2 v)
  else if a_idx =? 2 then mk (iv0 v) (iv1 v) x
  else v.

(** [operator[]] read: the source has no check of its own. *)
Definition get (v : t) (a_idx : Z) : Res Z :=
  if axis_ok a_idx then Ok (nth v a_idx) else Fault OutOfBounds.

(** [operator[]] as the target of an assignment. *)
Definition set (v : t) (a_idx x : Z) : Res t :=
  if axis_ok a_idx then Ok (upd v a_idx x) else Fault OutOfBounds.

(** Unary [operator-]. *)
Definition neg (v : t) : t := mk (- iv0 v) (- iv1 v) (- iv2 v).

Definition add (x y : t) : t :=
  mk (iv0 x + iv0 y) (iv1 x + iv1 y) (iv2 x + iv2 y).

Definition sub (x y : t) : t :=
  mk (iv0 x - iv0 y) (iv1 x - iv1 y) (iv2 x - iv2 y).


Definition product (v : t) : Z := 1 * iv0 v * iv1 v * iv2 v.

(** [operator<=]: componentwise. *)
Definition le (x y : t) : bool :=
  (iv0 x <=? iv0 y) && (iv1 x <=? iv1 y) && (iv2 x <=? iv2 y).

(** [operator==], [operator!=] and [operator<]. *)
Definition eqb (x y : t) : bool :=
  (iv0 x =? iv0 y) && (iv1 x =? iv1 y) && (iv2 x =? iv2 y).

Definition neb (x y : t) : bool :=
  negb (iv0 x =? iv0 y) || negb (iv1 x =? iv1 y) || negb (iv2 x =? iv2 y).

Definition lt (x y : t) : bool :=
  (iv0 x <? iv0 y) && (iv1 x <? iv1 y) && (iv2 x <? iv2 y).



(** [IntVect::min] and [IntVect::max]: the new value of the vector. *)
Definition min (v a_iv : t) : t :=
  mk (Z.min (iv0 v) (iv0 a_iv)) (Z.min (iv1 v) (iv1 a_iv)) (Z.min (iv2 v) (iv2 a_iv)).

Definition max (v a_iv : t) : t :=
  mk (Z.max (iv0 v) (iv0 a_iv)) (Z.max (iv1 v) (iv1 a_iv)) (Z.max (iv2 v) (iv2 a_iv)).



(** [operator*(IntVect, IntVect)]. *)
Definition mul (x y : t) : t :=
  mk (iv0 x * iv0 y) (iv1 x * iv1 y) (iv2 x * iv2 y).

(** [operator/(IntVect, IntVect)]: three divisions of [int], each undefined
    for a zero divisor and for [INT_MIN / -1].  The language leaves the
    order of the three open; the model takes the components in turn, which
    matters only for which of several undefined divisions is reported. *)
Definition div (x y : t) : Res t :=
  q0 <- int_div_checked (iv0 x) (iv0 y) ;;
  q1 <- int_div_checked (iv1 x) (iv1 y) ;;
  q2 <- int_div_checked (iv2 x) (iv2 y) ;;
  Ok (mk q0 q1 q2).

(** The three components are values of [int]. *)
Definition in_int (v : t) : bool :=
  in_int (iv0 v) && in_int (iv1 v) && in_int (iv2 v).

End IntVect.

(* ================================================================== *)
(** ** Box.H *)

Module Box.

Record t : Type := mk { m_lo : IntVect.t; m_hi : IntVect.t }.

Definition loVect_dir (b : t) (a_dir : Z) : Res Z := IntVect.get (m_lo b) a_dir.
Definition hiVect_dir (b : t) (a_dir : Z) : Res Z := IntVect.get (m_hi b) a_dir.

(** [Box::Box(lo, hi)] and [Box::define]. *)
Definition define (a_lo a_hi : IntVect.t) : Res t :=
  CH_assert (IntVect.le a_lo a_hi) ;;; Ok (mk a_lo a_hi).


(** The condition [Box::grow(int, int)] asserts on its direction. *)
Definition grow_dir_assertion (a_dir : Z) : bool :=
  (0 <=? a_dir) && (a_dir <=? g_SpaceDim).

(** [Box::grow(const int, const int)]. *)
Definition grow_dir (a_i a_dir : Z) (b : t) : Res t :=
  CH_assert (grow_dir_assertion a_dir) ;;;
  l <- IntVect.get (m_lo b) a_dir ;;
  lo' <- IntVect.set (m_lo b) a_dir (l - a_i) ;;
  h <- IntVect.get (m_hi b) a_dir ;;
  hi' <- IntVect.set (m_hi b) a_dir (h + a_i) ;;
  Ok (mk lo' hi').

(** [Box::shift(const IntVect&)]. *)
Definition shift (a_shift : IntVect.t) (b : t) : t :=
  mk (IntVect.add (m_lo b) a_shift) (IntVect.add (m_hi b) a_shift).

(** [Box::shift(const int, const int)]. *)
Definition shift_dir (a_i a_dir : Z) (b : t) : Res t :=
  l <- IntVect.get (m_lo b) a_dir ;;
  lo' <- IntVect.set (m_lo b) a_dir (l + a_i) ;;
  h <- IntVect.get (m_hi b) a_dir ;;
  hi' <- IntVect.set (m_hi b) a_dir (h + a_i) ;;
  Ok (mk lo' hi').

(** [Box::shift(const int, const int)] with the range of [int]. *)
Definition shift_dir_checked (a_i a_dir : Z) (b : t) : Res t :=
  l <- IntVect.get (m_lo b) a_dir ;;
  l' <- int_result (l + a_i) ;;
  lo' <- IntVect.set (m_lo b) a_dir l' ;;
  h <- IntVect.get (m_hi b) a_dir ;;
  h' <- int_result (h + a_i) ;;
  hi' <- IntVect.set (m_hi b) a_dir h' ;;
  Ok (mk lo' hi').


(** [Box::contains(const IntVect&)]. *)
Definition contains (b : t) (a_iv : IntVect.t) : bool :=
  IntVect.le (m_lo b) a_iv && IntVect.le a_iv (m_hi b).

(** [Box::size], in the executions without overflow: the product of the
    three extents. *)
Definition size (b : t) : Z :=
  (IntVect.iv0 (m_hi b) - IntVect.iv0 (m_lo b) + 1)
  * (IntVect.iv1 (m_hi b) - IntVect.iv1 (m_lo b) + 1)
  * (IntVect.iv2 (m_hi b) - IntVect.iv2 (m_lo b) + 1).

(** [Box::dimensions], in the executions without overflow. *)
Definition dimensions (b : t) : IntVect.t :=
  IntVect.mk (IntVect.iv0 (m_hi b) - IntVect.iv0 (m_lo b) + 1)
             (IntVect.iv1 (m_hi b) - IntVect.iv1 (m_lo b) + 1)
             (IntVect.iv2 (m_hi b) - IntVect.iv2 (m_lo b) + 1).

(** One extent [m_hi[d] - m_lo[d] + 1] with the range of [int]. *)
Definition extent_checked (lo hi : Z) : Res Z :=
  x <- int_result (hi - lo) ;;
  int_result (x + 1).

(** [Box::dimensions] and [Box::size] with the range of [int]: every
    difference, sum and product has to be an [int]. *)
Definition dimensions_checked (b : t) : Res IntVect.t :=
  d0 <- extent_checked (IntVect.iv0 (m_lo b)) (IntVect.iv0 (m_hi b)) ;;
  d1 <- extent_checked (IntVect.iv1 (m_lo b)) (IntVect.iv1 (m_hi b)) ;;
  d2 <- extent_checked (IntVect.iv2 (m_lo b)) (IntVect.iv2 (m_hi b)) ;;
  Ok (IntVect.mk d0 d1 d2).

Definition size_checked (b : t) : Res Z :=
  d0 <- extent_checked (IntVect.iv0 (m_lo b)) (IntVect.iv0 (m_hi b)) ;;
  d1 <- extent_checked (IntVect.iv1 (m_lo b)) (IntVect.iv1 (m_hi b)) ;;
  d2 <- extent_checked (IntVect.iv2 (m_lo b)) (IntVect.iv2 (m_hi b)) ;;
  p <- int_result (d0 * d1) ;;
  int_result (p * d2).

(** The two corners hold values of [int]. *)
Definition in_int (b : t) : bool :=
  IntVect.in_int (m_lo b) && IntVect.in_int (m_hi b).

(** [Box::isEmpty]. *)
Definition isEmpty (b : t) : bool :=
  (IntVect.iv0 (m_hi b) <? IntVect.iv0 (m_lo b))
  || (IntVect.iv1 (m_hi b) <? IntVect.iv1 (m_lo b))
  || (IntVect.iv2 (m_hi b) <? IntVect.iv2 (m_lo b)).

(** [Box::getStride]: axis 0 is the fastest. *)
Definition getStride (b : t) : IntVect.t :=
  let s0 := 1 in
  let s1 := s0 * (IntVect.iv0 (m_hi b) - IntVect.iv0 (m_lo b) + 1) in
  let s2 := s1 * (IntVect.iv1 (m_hi b) - IntVect.iv1 (m_lo b) + 1) in
  IntVect.mk s0 s1 s2.

(** [Box::vecToLin0]: the stride of axis 0 is not read. *)
Definition vecToLin0 (a_vec a_stride : IntVect.t) : Z :=
  IntVect.iv0 a_vec
  + IntVect.iv1 a_vec * IntVect.iv1 a_stride
  + IntVect.iv2 a_vec * IntVect.iv2 a_stride.

(** [Box::getOffset(stride)]. *)
Definition getOffset (b : t) (a_stride : IntVect.t) : Z :=
  vecToLin0 (IntVect.neg (m_lo b)) a_stride.

(** [Box::linToVec(lin, stride, vec)]: [D_INVTERM] runs the slowest axis
    first and axis 0 last. *)
Definition linToVec (b : t) (a_lin : Z) (a_stride : IntVect.t) : Res IntVect.t :=
  tmp2 <- int_div a_lin (IntVect.iv2 a_stride) ;;
  let v2 := tmp2 + IntVect.iv2 (m_lo b) in
  let a_lin := a_lin - tmp2 * IntVect.iv2 a_stride in
  tmp1 <- int_div a_lin (IntVect.iv1 a_stride) ;;
  let v1 := tmp1 + IntVect.iv1 (m_lo b) in
  let a_lin := a_lin - tmp1 * IntVect.iv1 a_stride in
  let v0 := a_lin + IntVect.iv0 (m_lo b) in
  Ok (IntVect.mk v0 v1 v2).

(** [Box::linToVec(lin, vec)], strides computed from the box. *)
Definition linToVec_auto (b : t) (a_lin : Z) : Res IntVect.t :=
  linToVec b a_lin (getStride b).




(** [Box::operator&=]. *)
Definition intersect (b a_box : t) : t :=
  mk (IntVect.max (m_lo b) (m_lo a_box)) (IntVect.min (m_hi b) (m_hi a_box)).

(** [Box::contains(const Box&)]. *)
Definition contains_box (b a_box : t) : bool :=
  IntVect.le (m_lo b) (m_lo a_box) && IntVect.le (m_hi a_box) (m_hi b).

(** [Box::operator==] and [Box::operator!=]. *)
Definition eqb (b a_box : t) : bool :=
  IntVect.eqb (m_lo b) (m_lo a_box) && IntVect.eqb (m_hi b) (m_hi a_box).

Definition neb (b a_box : t) : bool :=
  IntVect.neb (m_lo b) (m_lo a_box) || IntVect.neb (m_hi b) (m_hi a_box).


End Box.

(* ================================================================== *)
(** ** BoxIterator.H *)

Module BoxIterator.

Record t : Type := mk { m_current : IntVect.t; m_box : Box.t }.






Definition advance (it : t) (a_deltaiv : IntVect.t) : t :=
  mk (IntVect.add (m_current it) a_deltaiv) (m_box it).

(** [operator==(const T&)], [operator!=(const T&)] and
    [operator!=(const Self&)], which asserts that the two iterators run
    over the same box. *)
Definition eq_iv (it : t) (a_iv : IntVect.t) : bool := IntVect.eqb (m_current it) a_iv.

Definition ne_iv (it : t) (a_iv : IntVect.t) : bool := IntVect.neb (m_current it) a_iv.




End BoxIterator.

(* ================================================================== *)
(** ** Memory, loops and lane groups *)

(** A buffer addressed by element index. *)
Definition mem (T : Type) : Type := Z -> T.

Definition store {T : Type} (m : mem T) (a : Z) (v : T) : mem T :=
  fun a' => if a' =? a then v else m a'.

(** Run [body] over [xs] from left to right, stopping at the first fault. *)
Fixpoint foldM {S X : Type} (body : X -> S -> Res S) (xs : list X) (s : S) : Res S :=
  match xs with
  | [] => Ok s
  | x :: xs' => s' <- body x s ;; foldM body xs' s'
  end.

(** The integers [start, start+1, ..., start+len-1]. *)
Definition Zseq (start : Z) (len : nat) : list Z :=
  map (fun i => start + Z.of_nat i) (seq 0 len).

(** The values [x] takes in [for (x = first; x <= last; ++x)]. *)
Definition for_range (first last : Z) : list Z :=
  Zseq first (Z.to_nat (last - first + 1)).

(** The lanes of a group of width [blockDim.x]. *)
Definition lanes (blockDim : Z) : list Z := Zseq 0 (Z.to_nat blockDim).

(** An [int] array of fixed length, read and written by index. *)
Definition array_get (a : list Z) (i : Z) : Res Z :=
  if (0 <=? i) && (i <? Z.of_nat (length a))
  then Ok (List.nth (Z.to_nat i) a 0)
  else Fault OutOfBounds.

Fixpoint list_set {A : Type} (l : list A) (n : nat) (x : A) : list A :=
  match l, n with
  | [], _ => []
  | _ :: l', O => x :: l'
  | y :: l', S n' => y :: list_set l' n' x
  end.

Definition array_set (a : list Z) (i x : Z) : Res (list Z) :=
  if (0 <=? i) && (i <? Z.of_nat (length a))
  then Ok (list_set a (Z.to_nat i) x)
  else Fault OutOfBounds.

(** [size_t] is a 64-bit unsigned integer; conversion and product wrap. *)
Definition size_t_modulus : Z := 2 ^ 64.
Definition to_size_t (x : Z) : Z := x mod size_t_modulus.
Definition size_t_mul (x y : Z) : Z := (x * y) mod size_t_modulus.

(* ================================================================== *)
(** ** BaseFab.H *)

Module BaseFab.

Section Elements.
Context {T : Type}.

(** [m_data] points at the first element of the buffer the array owns or
    aliases; the model holds the buffer itself. *)
Record t : Type := mk {
  m_box : Box.t;
  m_stride : IntVect.t;
  m_ncomp : Z;
  m_size : Z;
  m_data : list T
}.

(** Modelled from the spec: [BaseFab::define] and [BaseFab::setStride] are
    in [BaseFab.cpp], which is not part of the sources.  The spec gives the
    stride convention ([stride[0] = 1], [stride[k] = stride[k-1] *
    extent(k-1)]) and a buffer of [region.size() * numComponents] elements,
    allocated or aliased; [a_buffer] is that buffer. *)
Definition define (a_box : Box.t) (a_ncomp : Z) (a_buffer : list T) : t :=
  mk a_box (Box.getStride a_box) a_ncomp (Box.size a_box) a_buffer.

(** [BaseFab::size]. *)
Definition size (f : t) : Z := m_ncomp f * m_size f.

(** [BaseFab::sizeBytes]: the factor is [sizeof(typeid(T).name())], the
    size of the pointer to [const char] that [name()] returns. *)
Definition sizeBytes (sizeof_const_char_ptr : Z) (f : t) : Z :=
  size_t_mul (to_size_t (size f)) sizeof_const_char_ptr.

(** [BaseFab::index]. *)
Definition index (f : t) (a_iv : IntVect.t) : Res Z :=
  CH_assert (Box.contains (m_box f) a_iv) ;;;
  let a_iv := IntVect.sub a_iv (Box.m_lo (m_box f)) in
  Ok (IntVect.iv0 a_iv * IntVect.iv0 (m_stride f)
      + IntVect.iv1 a_iv * IntVect.iv1 (m_stride f)
      + IntVect.iv2 a_iv * IntVect.iv2 (m_stride f)).

(** [m_data[k]]. *)
Definition buffer_get (l : list T) (k : Z) : Res T :=
  if (0 <=? k) && (k <? Z.of_nat (length l))
  then match nth_error l (Z.to_nat k) with
       | Some x => Ok x
       | None => Fault OutOfBounds
       end
  else Fault OutOfBounds.

(** [BaseFab::operator()]. *)
Definition at_ (f : t) (a_iv : IntVect.t) (a_icomp : Z) : Res T :=
  i <- index f a_iv ;;
  buffer_get (m_data f) (a_icomp * m_size f + i).

End Elements.

Arguments t : clear implicits.

End BaseFab.

(* ================================================================== *)
(** ** CudaFab.H: class CudaFab *)

Module CudaFab.

(** [m_data] is the element index the offset pointer designates in the
    memory the view aliases. *)
Record t : Type := mk {
  m_box : Box.t;
  m_stride : IntVect.t;
  m_ncomp : Z;
  m_size : Z;
  m_data : Z
}.

(** [CudaFab::setStride], which also sets [m_size]. *)
Definition setStride (f : t) : Res t :=
  let lo := Box.m_lo (m_box f) in
  let hi := Box.m_hi (m_box f) in
  CH_assert (IntVect.le lo hi) ;;;
  let s0 := 1 in
  let s1 := s0 * (IntVect.iv0 hi - IntVect.iv0 lo + 1) in
  let s2 := s1 * (IntVect.iv1 hi - IntVect.iv1 lo + 1) in
  let size := s2 * (IntVect.iv2 hi - IntVect.iv2 lo + 1) in
  Ok (mk (m_box f) (IntVect.mk s0 s1 s2) (m_ncomp f) size (m_data f)).

(** [CudaFab::define(alias, box, ncomp)], on an object [f]. *)
Definition define (a_alias : Z) (a_box : Box.t) (a_ncomp : Z) (f : t) : Res t :=
  let f := mk a_box (m_stride f) a_ncomp (m_size f) (m_data f) in
  f <- setStride f ;;
  Ok (mk (m_box f) (m_stride f) (m_ncomp f) (m_size f)
         (a_alias + Box.getOffset (m_box f) (m_stride f))).

(** [CudaFab::define(const BaseFabData<T>&)]: [BaseFabData] has the layout
    of [BaseFab]; [a_device] is [m_dataSymbol.device], the index of the first
    element of the mirrored buffer. *)
Definition define_BaseFabData {T : Type} (a_baseFab : BaseFab.t T) (a_device : Z) : t :=
  let box := BaseFab.m_box a_baseFab in
  let stride := BaseFab.m_stride a_baseFab in
  mk box stride (BaseFab.m_ncomp a_baseFab) (BaseFab.m_size a_baseFab)
     (a_device + Box.getOffset box stride).

(** [CudaFab::size] and [CudaFab::sizeBytes]; [sizeof_T] is [sizeof(T)]. *)
Definition size (f : t) : Z := m_ncomp f * m_size f.

Definition sizeBytes (sizeof_T : Z) (f : t) : Z :=
  size_t_mul (to_size_t (size f)) sizeof_T.

(** [CudaFab::index]. *)
Definition index (f : t) (a_iv : IntVect.t) : Res Z :=
  CH_assert (Box.contains (m_box f) a_iv) ;;;
  Ok (IntVect.iv0 a_iv
      + IntVect.iv1 a_iv * IntVect.iv1 (m_stride f)
      + IntVect.iv2 a_iv * IntVect.iv2 (m_stride f)).

(** The element [operator()] designates: [&m_data[icomp*m_size + index(iv)]]. *)
Definition address (f : t) (a_iv : IntVect.t) (a_icomp : Z) : Res Z :=
  i <- index f a_iv ;;
  Ok (m_data f + (a_icomp * m_size f + i)).

(** [operator()] read through the view. *)
Definition read {T : Type} (f : t) (m : mem T) (a_iv : IntVect.t) (a_icomp : Z) : Res T :=
  a <- address f a_iv a_icomp ;;
  Ok (m a).


(** [CudaFab::shift]. *)
Definition shift (a_i a_dir : Z) (f : t) : Res t :=
  let data := m_data f - Box.getOffset (m_box f) (m_stride f) in
  box <- Box.shift_dir a_i a_dir (m_box f) ;;
  let data := data + Box.getOffset box (m_stride f) in
  Ok (mk box (m_stride f) (m_ncomp f) (m_size f) data).

End CudaFab.

(* ================================================================== *)
(** ** CudaFab.H: class SlabFab *)

Module SlabFab.

(** The fields [SlabFab] adds to its base class [CudaFab].  [m_src] is a
    pointer to a view the caller owns: the operations that read through it
    take the view it points at ([src]) and the memory that view aliases
    ([gmem]) as arguments. *)
Record t : Type := mk {
  base : CudaFab.t;
  m_pTable : list Z;
  m_nrmDir : Z;
  m_numPntSlab : Z;
  m_numSubBox : Z;
  m_compBegSrc : Z
}.

Definition m_box (s : t) : Box.t := CudaFab.m_box (base s).
Definition m_stride (s : t) : IntVect.t := CudaFab.m_stride (base s).
Definition m_ncomp (s : t) : Z := CudaFab.m_ncomp (base s).
Definition m_size (s : t) : Z := CudaFab.m_size (base s).
Definition m_data (s : t) : Z := CudaFab.m_data (base s).

Definition with_box (s : t) (b : Box.t) : t :=
  mk (CudaFab.mk b (m_stride s) (m_ncomp s) (m_size s) (m_data s))
     (m_pTable s) (m_nrmDir s) (m_numPntSlab s) (m_numSubBox s) (m_compBegSrc s).

Definition with_pTable (s : t) (tbl : list Z) : t :=
  mk (base s) tbl (m_nrmDir s) (m_numPntSlab s) (m_numSubBox s) (m_compBegSrc s).

Definition with_numSubBox (s : t) (k : Z) : t :=
  mk (base s) (m_pTable s) (m_nrmDir s) (m_numPntSlab s) k (m_compBegSrc s).

(** [SlabFab::numSlab]. *)
Definition numSlab (s : t) : Res Z :=
  IntVect.get (Box.dimensions (m_box s)) (m_nrmDir s).

(** [SlabFab::index]: the coordinate along [m_nrmDir] goes through the
    permutation table. *)
Definition index (s : t) (a_iv : IntVect.t) : Res Z :=
  CH_assert (Box.contains (m_box s) a_iv) ;;;
  x <- IntVect.get a_iv (m_nrmDir s) ;;
  l <- Box.loVect_dir (m_box s) (m_nrmDir s) ;;
  p <- array_get (m_pTable s) (x - l) ;;
  a_iv <- IntVect.set a_iv (m_nrmDir s) p ;;
  Ok (IntVect.iv0 a_iv
      + IntVect.iv1 a_iv * IntVect.iv1 (m_stride s)
      + IntVect.iv2 a_iv * IntVect.iv2 (m_stride s)).

(** The element [SlabFab::operator()] designates. *)
Definition address (s : t) (a_iv : IntVect.t) (a_icomp : Z) : Res Z :=
  i <- index s a_iv ;;
  Ok (m_data s + (a_icomp * m_size s + i)).

(** [SlabFab::selectLoadMethod]. *)
Definition selectLoadMethod (blockDim a_numThr : Z) (s : t) : Res t :=
  if (blockDim =? a_numThr) && (blockDim =? m_numPntSlab s) then
    Ok (with_numSubBox s (-3))
  else if m_numPntSlab s <=? a_numThr then
    Ok (with_numSubBox s (-2))
  else
    CH_assert false ;;; Ok s.

(** [a_i += ((abs(a_i) - 1)/nSlab + 1)*nSlab]: the new value of [a_i], in
    the executions without overflow. *)
Definition normalize_shift (a_i nSlab : Z) : Res Z :=
  q <- int_div (Z.abs a_i - 1) nSlab ;;
  Ok (a_i + (q + 1) * nSlab).

(** What lane [threadIdx] does in [SlabFab::shift(int)] between the two
    barriers; [nSlab] was read before the first one. *)
Definition shift_lane (nSlab a_i threadIdx : Z) (s : t) : Res t :=
  if threadIdx <? nSlab then
    s <- (if threadIdx =? 0
          then b <- Box.shift_dir a_i (m_nrmDir s) (m_box s) ;; Ok (with_box s b)
          else Ok s) ;;
    a_i <- normalize_shift a_i nSlab ;;
    p <- array_get (m_pTable s) threadIdx ;;
    r <- int_rem (p + a_i) nSlab ;;
    tbl <- array_set (m_pTable s) threadIdx r ;;
    Ok (with_pTable s tbl)
  else Ok s.

(** [SlabFab::shift(int)], run by a group of [blockDim] lanes. *)
Definition shift (blockDim a_i : Z) (s : t) : Res t :=
  if a_i =? 0 then Ok s
  else
    nSlab <- numSlab s ;;
    CH_assert (nSlab <=? blockDim) ;;;
    foldM (shift_lane nSlab a_i) (lanes blockDim) s.

(** [SlabFab::numSlab] with the range of [int]. *)
Definition numSlab_checked (s : t) : Res Z :=
  d <- Box.dimensions_checked (m_box s) ;;
  IntVect.get d (m_nrmDir s).

(** [a_i += ((abs(a_i) - 1)/nSlab + 1)*nSlab] with the range of [int]:
    [abs], the difference, the quotient, the sum, the product and the final
    sum each have to be an [int]. *)
Definition normalize_shift_checked (a_i nSlab : Z) : Res Z :=
  x <- int_result (Z.abs a_i) ;;
  x <- int_result (x - 1) ;;
  q <- int_div_checked x nSlab ;;
  q <- int_result (q + 1) ;;
  m <- int_result (q * nSlab) ;;
  int_result (a_i + m).

(** The lane of [shift_lane] with the range of [int]: also the moved
    bounds of the box and the operand [m_pTable[threadIdx.x] + a_i] of [%]
    have to be values of [int]. *)
Definition shift_lane_checked (nSlab a_i threadIdx : Z) (s : t) : Res t :=
  if threadIdx <? nSlab then
    s <- (if threadIdx =? 0
          then b <- Box.shift_dir_checked a_i (m_nrmDir s) (m_box s) ;;
               Ok (with_box s b)
          else Ok s) ;;
    a_i <- normalize_shift_checked a_i nSlab ;;
    p <- array_get (m_pTable s) threadIdx ;;
    o <- int_result (p + a_i) ;;
    r <- int_rem_checked o nSlab ;;
    tbl <- array_set (m_pTable s) threadIdx r ;;
    Ok (with_pTable s tbl)
  else Ok s.

(** [SlabFab::shift(int)] with the range of [int]. *)
Definition shift_checked (blockDim a_i : Z) (s : t) : Res t :=
  if a_i =? 0 then Ok s
  else
    nSlab <- numSlab_checked s ;;
    CH_assert (nSlab <=? blockDim) ;;;
    foldM (shift_lane_checked nSlab a_i) (lanes blockDim) s.

Section Payload.
Context {T : Type}.

(** [SlabFab::operator()] read through the cache. *)
Definition read (s : t) (c : mem T) (a_iv : IntVect.t) (a_icomp : Z) : Res T :=
  a <- address s a_iv a_icomp ;;
  Ok (c a).

(** One assignment [this->operator()(vec, iC) = m_src->operator()(vec, iC)]. *)
Definition copy_point (s : t) (src : CudaFab.t) (gmem : mem T)
    (a_vecThr : IntVect.t) (iC : Z) (c : mem T) : Res (mem T) :=
  v <- CudaFab.read src gmem a_vecThr iC ;;
  a <- address s a_vecThr iC ;;
  Ok (store c a v).

(** [for (iC = m_compBegSrc; iC != compEndSrc; ++iC)] with
    [compEndSrc = m_compBegSrc + m_ncomp]. *)
Definition copy_components (s : t) (src : CudaFab.t) (gmem : mem T)
    (a_vecThr : IntVect.t) (c : mem T) : Res (mem T) :=
  if m_ncomp s <? 0 then Fault IntOverflow
  else foldM (copy_point s src gmem a_vecThr)
             (Zseq (m_compBegSrc s) (Z.to_nat (m_ncomp s))) c.

(** [SlabFab::loadSlab] as lane [threadIdx] of a group of width
    [blockDim] runs it. *)
Definition loadSlab (blockDim threadIdx : Z) (s : t) (src : CudaFab.t)
    (gmem : mem T) (a_vecThr : IntVect.t) (a_idxThr0 a_numThr : Z)
    (c : mem T) : Res (mem T) :=
  CH_assert (negb (m_numSubBox s =? 0)) ;;;
  x <- IntVect.get a_vecThr (m_nrmDir s) ;;
  l <- Box.loVect_dir (m_box s) (m_nrmDir s) ;;
  h <- Box.hiVect_dir (m_box s) (m_nrmDir s) ;;
  CH_assert ((l <=? x) && (x <=? h)) ;;;
  CH_assert (a_numThr <=? blockDim) ;;;
  if m_numSubBox s =? -3 then
    CH_assert (blockDim =? a_numThr) ;;;
    copy_components s src gmem a_vecThr c
  else if m_numSubBox s =? -2 then
    let idxThr := threadIdx - a_idxThr0 in
    CH_assert (m_numPntSlab s <=? a_numThr) ;;;
    if (0 <=? idxThr) && (idxThr <? m_numPntSlab s)
    then copy_components s src gmem a_vecThr c
    else Ok c
  else Ok c.

(** The loop [for (locND = first; locND <= last; ++locND)] of [define] and
    of [shift(int, IntVect&)], on the lane's cursor and the cache. *)
Definition load_range (blockDim threadIdx : Z) (s : t) (src : CudaFab.t)
    (gmem : mem T) (a_numThr first last : Z)
    (st : IntVect.t * mem T) : Res (IntVect.t * mem T) :=
  foldM (fun locND st =>
           vec <- IntVect.set (fst st) (m_nrmDir s) locND ;;
           c <- loadSlab blockDim threadIdx s src gmem vec 0 a_numThr (snd st) ;;
           Ok (vec, c))
        (for_range first last) st.

(** A lane group at work on one cache: the cache object, every lane's
    cursor ([a_vecLS], [a_vecThrLS]) and the storage the cache aliases. *)
Record group : Type := mkGroup {
  fab : t;
  vecThr : mem IntVect.t;
  cache : mem T
}.



(** What the designated lane does in [SlabFab::define] before the
    barrier. *)
Definition define_setup (MxSz blockDim a_alias : Z) (a_box : Box.t)
    (a_ncomp a_nrmDir a_compBegSrc a_numThrLS : Z) (s : t) : Res t :=
  f <- CudaFab.setStride
         (CudaFab.mk a_box (m_stride s) a_ncomp (m_size s) (m_data s)) ;;
  lo <- IntVect.set (Box.m_lo a_box) a_nrmDir 0 ;;
  let data := a_alias + Box.vecToLin0 (IntVect.neg lo) (CudaFab.m_stride f) in
  let f := CudaFab.mk (CudaFab.m_box f) (CudaFab.m_stride f)
                      (CudaFab.m_ncomp f) (CudaFab.m_size f) data in
  let pTable := Zseq 0 (Z.to_nat MxSz) in
  let dims := Box.dimensions a_box in
  numSlab <- IntVect.get dims a_nrmDir ;;
  CH_assert ((1 <? numSlab) && (numSlab <=? MxSz)) ;;;
  dims <- IntVect.set dims a_nrmDir 1 ;;
  let numPntSlab := IntVect.product dims in
  CH_assert (a_numThrLS <=? blockDim) ;;;
  s <- selectLoadMethod blockDim a_numThrLS
         (mk f pTable a_nrmDir numPntSlab (m_numSubBox s) (m_compBegSrc s)) ;;
  Ok (mk (base s) (m_pTable s) (m_nrmDir s) (m_numPntSlab s) (m_numSubBox s)
         a_compBegSrc).

(** What lane [threadIdx] does in [SlabFab::define] after the barrier. *)
Definition define_lane (blockDim a_locNDBeg a_locNDEnd : Z) (src : CudaFab.t)
    (gmem : mem T) (a_numThrLS threadIdx : Z) (g : group) : Res group :=
  let s := fab g in
  vec <- (if threadIdx <? m_numPntSlab s
          then Box.linToVec_auto (m_box s) threadIdx
          else Ok (vecThr g threadIdx)) ;;
  st <- load_range blockDim threadIdx s src gmem a_numThrLS a_locNDBeg a_locNDEnd
          (vec, cache g) ;;
  Ok (mkGroup s (store (vecThr g) threadIdx (fst st)) (snd st)).

(** [SlabFab::define], run by a group of [blockDim] lanes on the object
    and cursors of [g]; [a_alias] is the index of the first element of the
    storage given to the cache. *)
Definition define (MxSz blockDim a_alias : Z) (a_box : Box.t)
    (a_ncomp a_nrmDir a_locNDBeg a_locNDEnd a_compBegSrc : Z)
    (src : CudaFab.t) (gmem : mem T) (a_numThrLS : Z) (g : group) : Res group :=
  s <- foldM (fun threadIdx s =>
                if threadIdx =? 0
                then define_setup MxSz blockDim a_alias a_box a_ncomp a_nrmDir
                                  a_compBegSrc a_numThrLS s
                else Ok s)
             (lanes blockDim) (fab g) ;;
  foldM (define_lane blockDim a_locNDBeg a_locNDEnd src gmem a_numThrLS)
        (lanes blockDim) (mkGroup s (vecThr g) (cache g)).

End Payload.

Arguments group : clear implicits.

End SlabFab.

(* ================================================================== *)
(** ** Vocabulary of the properties *)

(** Scenario A of the specification: the region [[(0,0,0),(3,3,3)]], one
    component, filled with [0..63] in the order of the buffer. *)
Definition scenarioA_box : Box.t := Box.mk (IntVect.mk 0 0 0) (IntVect.mk 3 3 3).
Definition scenarioA_fab : BaseFab.t Z := BaseFab.define scenarioA_box 1 (Zseq 0 64).

(** Sizes in bytes on an LP64 host: [float] takes 4 bytes, [double] 8 and a
    pointer to [const char] 8. *)
Definition sizeof_float : Z := 4.
Definition sizeof_double : Z := 8.
Definition sizeof_const_char_ptr_LP64 : Z := 8.

(** Bounds and depth of the window along [m_nrmDir]. *)
Definition slab_lo (s : SlabFab.t) : Z :=
  IntVect.nth (Box.m_lo (SlabFab.m_box s)) (SlabFab.m_nrmDir s).
Definition slab_hi (s : SlabFab.t) : Z :=
  IntVect.nth (Box.m_hi (SlabFab.m_box s)) (SlabFab.m_nrmDir s).
Definition slab_count (s : SlabFab.t) : Z :=
  IntVect.nth (Box.dimensions (SlabFab.m_box s)) (SlabFab.m_nrmDir s).

(** Entry [i] of the permutation table. *)
Definition entry (s : SlabFab.t) (i : Z) : Z :=
  List.nth (Z.to_nat i) (SlabFab.m_pTable s) 0.

(** The first [numSlab] entries of the table are a bijection onto
    [{0, ..., numSlab-1}]. *)
Definition table_is_permutation (s : SlabFab.t) : Prop :=
  Permutation (firstn (Z.to_nat (slab_count s)) (SlabFab.m_pTable s))
              (Zseq 0 (Z.to_nat (slab_count s))).


(** The state of a cache that [define] has set up for a group of width
    [blockDim] and capacity [MxSz], whatever shifts followed. *)
Record wf (MxSz blockDim : Z) (s : SlabFab.t) : Prop := mk_wf {
  wf_axis : IntVect.axis_ok (SlabFab.m_nrmDir s) = true;
  wf_box : IntVect.le (Box.m_lo (SlabFab.m_box s)) (Box.m_hi (SlabFab.m_box s)) = true;
  wf_stride : SlabFab.m_stride s = Box.getStride (SlabFab.m_box s);
  wf_size : SlabFab.m_size s = Box.size (SlabFab.m_box s);
  wf_ncomp : 0 <= SlabFab.m_ncomp s;
  wf_len : Z.of_nat (length (SlabFab.m_pTable s)) = MxSz;
  wf_count : 1 < slab_count s <= MxSz;
  wf_numPnt : SlabFab.m_numPntSlab s
              = IntVect.product
                  (IntVect.upd (Box.dimensions (SlabFab.m_box s)) (SlabFab.m_nrmDir s) 1);
  wf_method : (SlabFab.m_numSubBox s = -3 /\ blockDim = SlabFab.m_numPntSlab s)
              \/ (SlabFab.m_numSubBox s = -2 /\ SlabFab.m_numPntSlab s <= blockDim)
}.









(** A sequence of calls of [shift(int)]. *)
Definition shifts (blockDim : Z) (ns : list Z) (s : SlabFab.t) : Res SlabFab.t :=
  foldM (SlabFab.shift blockDim) ns s.

(** The same sequence with the range of [int]. *)
Definition shifts_checked (blockDim : Z) (ns : list Z) (s : SlabFab.t)
    : Res SlabFab.t :=
  foldM (SlabFab.shift_checked blockDim) ns s.

(** Amounts that keep the arithmetic of successive calls of [shift(int)]
    within [int], for a window of [N] slabs from [lo] to [hi]: the moved
    bounds are values of [int], and so is twice the sum of the amount and
    the number of slabs, which bounds the normalized amount and the operand
    of [%]. *)
Fixpoint shifts_in_int (N lo hi : Z) (ns : list Z) : bool :=
  match ns with
  | [] => true
  | n :: ns' =>
      ((n =? 0)
       || ((2 * (Z.abs n + N) <=? INT_MAX) && in_int (lo + n) && in_int (hi + n)))
      && shifts_in_int N (lo + n) (hi + n) ns'
  end.

(** The window of [s] moved by [n] along [m_nrmDir]. *)
Definition moved_box (s : SlabFab.t) (n : Z) : Box.t :=
  Box.mk (IntVect.upd (Box.m_lo (SlabFab.m_box s)) (SlabFab.m_nrmDir s) (slab_lo s + n))
         (IntVect.upd (Box.m_hi (SlabFab.m_box s)) (SlabFab.m_nrmDir s) (slab_hi s + n)).








(** ** Concrete caches *)

Definition ok_or {A : Type} (d : A) (c : Res A) : A :=
  match c with Ok a => a | Fault _ => d end.

Definition is_ok {A : Type} (c : Res A) : bool :=
  match c with Ok _ => true | Fault _ => false end.

(** A source view of one component over [[(-2,-2,-2),(7,7,7)]] on a memory
    whose element [a] holds [1000 + a]. *)
Definition demo_src_box : Box.t := Box.mk (IntVect.mk (-2) (-2) (-2)) (IntVect.mk 7 7 7).
Definition demo_src : CudaFab.t :=
  CudaFab.mk demo_src_box (IntVect.mk 1 10 100) 1 1000 222.
Definition demo_gmem : mem Z := fun a => 1000 + a.

(** A group before [define]: cache object and cursors not yet set, storage
    all zero. *)
Definition demo_blank : SlabFab.group Z :=
  SlabFab.mkGroup
    (SlabFab.mk (CudaFab.mk (Box.mk (IntVect.mk 1 1 1) (IntVect.mk 0 0 0))
                   (IntVect.mk 0 0 0) 0 0 0) [] 0 0 0 0)
    (fun _ => IntVect.mk 0 0 0) (fun _ => 0).

(** Scenario B of the specification: capacity 6, depth 4 along axis 2, a
    window [[(0,0,0),(3,3,3)]], 16 lanes, every slab preloaded. *)
Definition scenarioB : SlabFab.group Z :=
  ok_or demo_blank
    (SlabFab.define 6 16 0 scenarioA_box 1 2 0 3 0 demo_src demo_gmem 16 demo_blank).


(** The same window with only the slabs 1..3 preloaded. *)
Definition scenarioB_partial : SlabFab.group Z :=
  ok_or demo_blank
    (SlabFab.define 6 16 0 scenarioA_box 1 2 1 3 0 demo_src demo_gmem 16 demo_blank).

(** A window [[(0,0,0),(1,1,1)]] that slides along axis 0, 4 lanes, both
    slabs preloaded. *)
Definition axis0_box : Box.t := Box.mk (IntVect.mk 0 0 0) (IntVect.mk 1 1 1).
Definition axis0_cache : SlabFab.group Z :=
  ok_or demo_blank
    (SlabFab.define 6 4 0 axis0_box 1 0 0 1 0 demo_src demo_gmem 4 demo_blank).


(* ================================================================== *)
(** * Properties *)

(** ** Arithmetic of mixed-radix indices *)



Lemma mixed_radix_bound (a0 a1 a2 e0 e1 e2 : Z) :
  0 <= a0 < e0 -> 0 <= a1 < e1 -> 0 <= a2 < e2 ->
  0 <= a0 + a1 * e0 + a2 * (e0 * e1) < e0 * e1 * e2.
Proof.
  intros H0 H1 H2.
  assert (0 <= a1 * e0) by nia.
  assert (a1 * e0 <= (e1 - 1) * e0) by nia.
  assert (0 < e0 * e1) by nia.
  assert (0 <= a2 * (e0 * e1)) by nia.
  assert (a2 * (e0 * e1) <= (e2 - 1) * (e0 * e1)) by nia.
  nia.
Qed.


(** ** Reading the boolean tests *)

Lemma IntVect_le_spec (x y : IntVect.t) :
  IntVect.le x y = true <->
  IntVect.iv0 x <= IntVect.iv0 y /\ IntVect.iv1 x <= IntVect.iv1 y
  /\ IntVect.iv2 x <= IntVect.iv2 y.
Proof.
  unfold IntVect.le. rewrite !andb_true_iff, !Z.leb_le. tauto.
Qed.

Lemma Box_contains_spec (b : Box.t) (p : IntVect.t) :
  Box.contains b p = true <->
  (IntVect.iv0 (Box.m_lo b) <= IntVect.iv0 p <= IntVect.iv0 (Box.m_hi b))
  /\ (IntVect.iv1 (Box.m_lo b) <= IntVect.iv1 p <= IntVect.iv1 (Box.m_hi b))
  /\ (IntVect.iv2 (Box.m_lo b) <= IntVect.iv2 p <= IntVect.iv2 (Box.m_hi b)).
Proof.
  unfold Box.contains. rewrite andb_true_iff, !IntVect_le_spec. tauto.
Qed.

Lemma axis_ok_cases (d : Z) :
  IntVect.axis_ok d = true <-> d = 0 \/ d = 1 \/ d = 2.
Proof.
  unfold IntVect.axis_ok, g_SpaceDim.
  rewrite andb_true_iff, Z.leb_le, Z.ltb_lt. lia.
Qed.


(** Reduce record projections applied to constructors, and nothing else. *)
Ltac proj_simpl :=
  cbn [IntVect.iv0 IntVect.iv1 IntVect.iv2 Box.m_lo Box.m_hi
       CudaFab.m_box CudaFab.m_stride CudaFab.m_ncomp CudaFab.m_size
       CudaFab.m_data BaseFab.m_box BaseFab.m_stride BaseFab.m_ncomp
       BaseFab.m_size BaseFab.m_data SlabFab.base SlabFab.m_pTable
       SlabFab.m_nrmDir SlabFab.m_numPntSlab SlabFab.m_numSubBox
       SlabFab.m_compBegSrc SlabFab.fab SlabFab.vecThr SlabFab.cache
       fst snd] in *.

(** ** The range of [int] *)

Lemma in_int_spec (x : Z) :
  in_int x = true <-> -2147483648 <= x <= 2147483647.
Proof.
  unfold in_int, INT_MIN, INT_MAX.
  change (- 2 ^ 31) with (-2147483648). change (2 ^ 31 - 1) with 2147483647.
  rewrite andb_true_iff, !Z.leb_le. reflexivity.
Qed.

Lemma in_int_false (x : Z) :
  in_int x = false <-> x < -2147483648 \/ 2147483647 < x.
Proof.
  destruct (in_int x) eqn:E.
  - apply in_int_spec in E. split; [discriminate | lia].
  - split; [|reflexivity]. intros _.
    destruct (Z_lt_dec x (-2147483648)); [lia|].
    destruct (Z_lt_dec 2147483647 x); [lia|].
    assert (H : in_int x = true) by (apply in_int_spec; lia). congruence.
Qed.

Lemma int_result_ok (x y : Z) : int_result x = Ok y -> y = x /\ in_int x = true.
Proof.
  unfold int_result. destruct (in_int x); [|discriminate].
  intros H. injection H as <-. auto.
Qed.

Lemma int_result_in (x : Z) : in_int x = true -> int_result x = Ok x.
Proof. unfold int_result. intros ->. reflexivity. Qed.

Lemma int_result_out (x : Z) : in_int x = false -> int_result x = Fault IntOverflow.
Proof. unfold int_result. intros ->. reflexivity. Qed.

Lemma quot_abs_le (a b : Z) : b <> 0 -> Z.abs (Z.quot a b) <= Z.abs a.
Proof.
  intros Hb. rewrite <- Z.quot_abs by exact Hb.
  apply Z.quot_le_upper_bound; [lia|]. nia.
Qed.

Lemma int_div_checked_spec (a b : Z) :
  in_int a = true ->
  int_div_checked a b
  = if b =? 0 then Fault DivideByZero
    else if (a =? -2147483648) && (b =? -1) then Fault IntOverflow
    else Ok (Z.quot a b).
Proof.
  intros Ha. apply in_int_spec in Ha. unfold int_div_checked, int_div.
  destruct (Z.eqb_spec b 0) as [E|E]; [reflexivity|]. cbn [bind].
  destruct (Z.eqb_spec a (-2147483648)) as [Ea|Ea];
    destruct (Z.eqb_spec b (-1)) as [Eb|Eb]; cbn [andb].
  - subst. apply int_result_out. reflexivity.
  - apply int_result_in, in_int_spec.
    pose proof (quot_abs_le a b E).
    assert (Z.quot a b <> 2147483648).
    { intros Hq. pose proof (Z.quot_rem' a b) as D.
      pose proof (Z.rem_bound_abs a b E). nia. }
    lia.
  - apply int_result_in, in_int_spec.
    subst b.
    assert (Hq : Z.quot a (-1) = - a).
    { change (-1) with (Z.opp 1). rewrite Z.quot_opp_r, Z.quot_1_r by lia.
      reflexivity. }
    lia.
  - apply int_result_in, in_int_spec.
    pose proof (quot_abs_le a b E). lia.
Qed.

Lemma int_div_checked_cases (a b : Z) :
  in_int a = true ->
  (b = 0 /\ int_div_checked a b = Fault DivideByZero)
  \/ (a = INT_MIN /\ b = -1 /\ int_div_checked a b = Fault IntOverflow)
  \/ (b <> 0 /\ ~ (a = INT_MIN /\ b = -1)
      /\ int_div_checked a b = Ok (Z.quot a b)
      /\ in_int (Z.quot a b) = true).
Proof.
  intros Ha. pose proof (int_div_checked_spec a b Ha) as H.
  change INT_MIN with (-2147483648).
  destruct (Z.eqb_spec b 0) as [E|E]; [left; auto|]. right.
  destruct (Z.eqb_spec a (-2147483648)) as [Ea|Ea];
    destruct (Z.eqb_spec b (-1)) as [Eb|Eb]; cbn [andb] in H;
    [left; auto | right | right | right];
    (split; [exact E|]); (split; [lia|]); (split; [exact H|]);
    unfold int_div_checked, int_div in H;
    destruct (Z.eqb_spec b 0); try contradiction; cbn [bind] in H;
    apply int_result_ok in H; apply H.
Qed.

Lemma IntVect_in_int_spec (v : IntVect.t) :
  IntVect.in_int v = true
  <-> in_int (IntVect.iv0 v) = true /\ in_int (IntVect.iv1 v) = true
      /\ in_int (IntVect.iv2 v) = true.
Proof. unfold IntVect.in_int. rewrite !andb_true_iff. tauto. Qed.

(** ** Box: linearize and delinearize *)





(** ** Box: adjacent cells *)



(** C10.  The direction check of [Box::grow(i, dir)] is
    [a_dir >= 0 && a_dir <= g_SpaceDim]: it admits [dir = g_SpaceDim], which is
    not an index of the [g_SpaceDim] components, and the access that follows
    leaves the coordinate. *)
Theorem grow_dir_assertion_admits_SpaceDim :
  Box.grow_dir_assertion g_SpaceDim = true
  /\ IntVect.axis_ok g_SpaceDim = false
  /\ (forall (a_i : Z) (b : Box.t),
        Box.grow_dir a_i g_SpaceDim b = Fault OutOfBounds)
  /\ (forall (a_i : Z) (b : Box.t),
        Box.grow_dir a_i (g_SpaceDim + 1) b = Fault AssertFailed)
  /\ Box.grow_dir 1 (g_SpaceDim - 1) scenarioA_box
     = Ok (Box.mk (IntVect.mk 0 0 (-1)) (IntVect.mk 3 3 4)).
Proof.
  repeat split; reflexivity.
Qed.

(** ** CudaFab: translation of a view *)

Lemma shift_dir_ok (n d : Z) (b : Box.t) :
  IntVect.axis_ok d = true ->
  Box.shift_dir n d b
  = Ok (Box.mk (IntVect.upd (Box.m_lo b) d (IntVect.nth (Box.m_lo b) d + n))
               (IntVect.upd (Box.m_hi b) d (IntVect.nth (Box.m_hi b) d + n))).
Proof.
  intros Hd. unfold Box.shift_dir, IntVect.get, IntVect.set, bind.
  rewrite Hd. reflexivity.
Qed.



(** ** BaseFab: element access and size in bytes *)

Lemma buffer_get_nth_error (T : Type) (l : list T) (k : Z) :
  0 <= k < Z.of_nat (length l) ->
  exists x : T, BaseFab.buffer_get l k = Ok x /\ nth_error l (Z.to_nat k) = Some x.
Proof.
  intros Hk. unfold BaseFab.buffer_get.
  destruct (Z.leb_spec 0 k); [|lia].
  destruct (Z.ltb_spec k (Z.of_nat (length l))); [|lia].
  cbn [andb].
  destruct (nth_error l (Z.to_nat k)) as [x|] eqn:E.
  - exists x. split; reflexivity.
  - apply nth_error_None in E. lia.
Qed.

(** C8.  [BaseFab::operator()] reads [m_data[icomp*m_size + index(iv)]],
    where [index] is the sum over the axes of [(iv - lo)[k] * m_stride[k]].
    On an array set up by [define] over a region that contains the
    coordinate, with the component in range, that is the buffer element at
    [icomp * region.size() + index] with [index] the axis-0-fastest
    linearization of [iv - lo], an offset inside the buffer.  In scenario A,
    [at((2,1,0), 0)] is [6]. *)
Theorem BaseFab_at_offset :
  (forall (T : Type) (f : BaseFab.t T) (iv : IntVect.t) (c : Z),
     Box.contains (BaseFab.m_box f) iv = true ->
     let r := IntVect.sub iv (Box.m_lo (BaseFab.m_box f)) in
     let i := IntVect.iv0 r * IntVect.iv0 (BaseFab.m_stride f)
              + IntVect.iv1 r * IntVect.iv1 (BaseFab.m_stride f)
              + IntVect.iv2 r * IntVect.iv2 (BaseFab.m_stride f) in
     BaseFab.index f iv = Ok i
     /\ BaseFab.at_ f iv c
        = BaseFab.buffer_get (BaseFab.m_data f) (c * BaseFab.m_size f + i))
  /\ (forall (T : Type) (box : Box.t) (ncomp : Z) (buf : list T)
             (iv : IntVect.t) (c : Z),
        Z.of_nat (length buf) = Box.size box * ncomp ->
        Box.contains box iv = true ->
        0 <= c < ncomp ->
        let f := BaseFab.define box ncomp buf in
        let r := IntVect.sub iv (Box.m_lo box) in
        let d := Box.dimensions box in
        let i := IntVect.iv0 r + IntVect.iv1 r * IntVect.iv0 d
                 + IntVect.iv2 r * (IntVect.iv0 d * IntVect.iv1 d) in
        BaseFab.index f iv = Ok i
        /\ 0 <= i < Box.size box
        /\ 0 <= c * Box.size box + i < Z.of_nat (length buf)
        /\ exists x : T,
             BaseFab.at_ f iv c = Ok x
             /\ nth_error buf (Z.to_nat (c * Box.size box + i)) = Some x)
  /\ BaseFab.at_ scenarioA_fab (IntVect.mk 2 1 0) 0 = Ok 6.
Proof.
  split; [|split].
  - intros T f iv c Hc r i.
    unfold BaseFab.at_, BaseFab.index. rewrite Hc. cbn [CH_assert bind].
    split; reflexivity.
  - intros T box ncomp buf iv c Hlen Hc Hcomp f r d i.
    assert (Hi : BaseFab.index f iv = Ok i).
    { unfold BaseFab.index, f, BaseFab.define. proj_simpl. rewrite Hc.
      cbn [CH_assert bind]. f_equal. subst i r d.
      unfold Box.getStride, Box.dimensions. proj_simpl. ring. }
    assert (Hb : 0 <= i < Box.size box).
    { apply Box_contains_spec in Hc. subst i r d.
      destruct box as [[l0 l1 l2] [h0 h1 h2]], iv as [p0 p1 p2].
      unfold Box.size, Box.dimensions, IntVect.sub. proj_simpl.
      apply mixed_radix_bound; lia. }
    assert (Hoff : 0 <= c * Box.size box + i < Z.of_nat (length buf)).
    { rewrite Hlen. nia. }
    split; [exact Hi|]. split; [exact Hb|]. split; [exact Hoff|].
    unfold BaseFab.at_. rewrite Hi. cbn [bind].
    unfold f, BaseFab.define. proj_simpl.
    apply buffer_get_nth_error. exact Hoff.
  - reflexivity.
Qed.

Lemma BaseFab_at_offset_witness :
  exists x : Z,
    BaseFab.at_ scenarioA_fab (IntVect.mk 2 1 0) 0 = Ok x
    /\ nth_error (Zseq 0 64) (Z.to_nat 6) = Some x.
Proof.
  destruct BaseFab_at_offset as (_ & Hgen & _).
  destruct (Hgen Z scenarioA_box 1 (Zseq 0 64) (IntVect.mk 2 1 0) 0
              eq_refl eq_refl ltac:(lia))
    as (_ & _ & _ & x & Hat & Hnth).
  exists x. split; [exact Hat | exact Hnth].
Defined.

Lemma sizeBytes_differ_in_general (T : Type) (f : BaseFab.t T)
    (a_device sizeof_T sizeof_ptr : Z) :
  0 < BaseFab.size f < 2 ^ 31 ->
  0 < sizeof_T < 2 ^ 16 ->
  0 < sizeof_ptr < 2 ^ 16 ->
  (BaseFab.sizeBytes sizeof_ptr f
   = CudaFab.sizeBytes sizeof_T (CudaFab.define_BaseFabData f a_device)
   <-> sizeof_ptr = sizeof_T).
Proof.
  intros Hs HT Hp.
  unfold BaseFab.sizeBytes, CudaFab.sizeBytes, CudaFab.size, BaseFab.size in *.
  unfold CudaFab.define_BaseFabData. proj_simpl.
  unfold size_t_mul, to_size_t, size_t_modulus.
  set (n := BaseFab.m_ncomp f * BaseFab.m_size f) in *.
  assert (H64 : 2 ^ 64 = 2 ^ 31 * 2 ^ 16 * 2 ^ 17) by reflexivity.
  assert (H31 : 0 < 2 ^ 31) by reflexivity.
  assert (H16 : 0 < 2 ^ 16) by reflexivity.
  assert (H17 : 1 < 2 ^ 17) by reflexivity.
  rewrite (Z.mod_small n) by nia.
  rewrite !Z.mod_small by nia.
  split; [nia | intros ->; reflexivity].
Qed.

(** C9.  For a [BaseFab<float>] over the region of scenario A with one
    component, [BaseFab::sizeBytes] multiplies the 64 elements by
    [sizeof(typeid(T).name())], the size of a pointer to [const char], and returns 512;
    [CudaFab::sizeBytes] of the view of the same array multiplies by
    [sizeof(T)] and returns 256, the number of bytes of the 64 elements.
    (For [double] on the same host both return 512.) *)
Theorem sizeBytes_host_differs_from_device :
  let f := scenarioA_fab in
  let v := CudaFab.define_BaseFabData f 0 in
  CudaFab.m_box v = BaseFab.m_box f
  /\ CudaFab.m_ncomp v = BaseFab.m_ncomp f
  /\ BaseFab.size f = 64
  /\ CudaFab.size v = 64
  /\ BaseFab.sizeBytes sizeof_const_char_ptr_LP64 f = 512
  /\ CudaFab.sizeBytes sizeof_float v = 256
  /\ CudaFab.sizeBytes sizeof_float v = 64 * sizeof_float
  /\ BaseFab.sizeBytes sizeof_const_char_ptr_LP64 f
     <> CudaFab.sizeBytes sizeof_float v
  /\ BaseFab.sizeBytes sizeof_const_char_ptr_LP64 f
     = CudaFab.sizeBytes sizeof_double v.
Proof.
  cbv zeta. repeat split; try reflexivity. discriminate.
Qed.

(** ** Lists of integers, arrays and loops *)

Lemma Zseq_cons (a : Z) (n : nat) : Zseq a (S n) = a :: Zseq (a + 1) n.
Proof.
  unfold Zseq. cbn [seq map]. f_equal; [lia|].
  rewrite <- seq_shift, map_map. apply map_ext. intros i. lia.
Qed.

Lemma Zseq_length (a : Z) (n : nat) : length (Zseq a n) = n.
Proof. unfold Zseq. rewrite length_map, length_seq. reflexivity. Qed.

Lemma Zseq_In (a : Z) (n : nat) (x : Z) :
  In x (Zseq a n) <-> a <= x < a + Z.of_nat n.
Proof.
  unfold Zseq. rewrite in_map_iff. split.
  - intros (i & <- & Hi). apply in_seq in Hi. lia.
  - intros Hx. exists (Z.to_nat (x - a)). split; [lia|]. apply in_seq. lia.
Qed.

Lemma Zseq_nth (a : Z) (n i : nat) (d : Z) :
  (i < n)%nat -> List.nth i (Zseq a n) d = a + Z.of_nat i.
Proof.
  intros Hi. unfold Zseq.
  rewrite (nth_indep _ d (a + Z.of_nat 0)) by (rewrite length_map, length_seq; lia).
  rewrite (map_nth (fun i => a + Z.of_nat i)), seq_nth by lia. reflexivity.
Qed.

Lemma Zseq_NoDup (a : Z) (n : nat) : NoDup (Zseq a n).
Proof.
  revert a. induction n as [|n IH]; intros a.
  - constructor.
  - rewrite Zseq_cons. constructor; [|apply IH].
    rewrite Zseq_In. lia.
Qed.


Lemma lanes_cons (blockDim : Z) :
  0 < blockDim -> lanes blockDim = 0 :: Zseq 1 (Z.to_nat (blockDim - 1)).
Proof.
  intros H. unfold lanes.
  replace (Z.to_nat blockDim) with (S (Z.to_nat (blockDim - 1))) by lia.
  apply Zseq_cons.
Qed.


Lemma list_set_length (A : Type) (l : list A) (n : nat) (x : A) :
  length (list_set l n x) = length l.
Proof.
  revert n. induction l as [|y l IH]; intros [|n]; cbn; auto.
Qed.

Lemma list_set_nth (A : Type) (l : list A) (n i : nat) (x d : A) :
  (n < length l)%nat ->
  List.nth i (list_set l n x) d = if Nat.eqb i n then x else List.nth i l d.
Proof.
  revert n i. induction l as [|y l IH]; intros [|n] [|i] Hn; cbn in *;
    try lia; auto.
  apply IH. lia.
Qed.

Lemma foldM_ok_inv {S X : Type} (body : X -> S -> Res S) (I : S -> Prop) :
  (forall x s s', body x s = Ok s' -> I s -> I s') ->
  forall xs s s', foldM body xs s = Ok s' -> I s -> I s'.
Proof.
  intros Hstep xs. induction xs as [|x xs IH]; intros s s' H HI; cbn in H.
  - inversion H. subst. exact HI.
  - destruct (body x s) as [s1|f] eqn:E; cbn in H; [|discriminate].
    eapply IH; [exact H|]. eapply Hstep; eauto.
Qed.

Lemma foldM_skip {S X : Type} (body : X -> S -> Res S) (xs : list X) (s : S) :
  (forall x, In x xs -> body x s = Ok s) -> foldM body xs s = Ok s.
Proof.
  induction xs as [|x xs IH]; intros H; cbn; [reflexivity|].
  rewrite (H x (or_introl eq_refl)). cbn. apply IH.
  intros y Hy. apply H. right. exact Hy.
Qed.


(** ** The rotation of the permutation table *)

Lemma normalize_shift_ok (n N : Z) :
  0 < N -> n <> 0 ->
  exists a : Z,
    SlabFab.normalize_shift n N = Ok a /\ 0 <= a /\ a mod N = n mod N.
Proof.
  intros HN Hn. unfold SlabFab.normalize_shift, int_div, bind.
  destruct (Z.eqb_spec N 0) as [E|_]; [lia|].
  eexists. split; [reflexivity|].
  rewrite Z.quot_div_nonneg by lia.
  pose proof (Z.div_mod (Z.abs n - 1) N ltac:(lia)) as Hdm.
  pose proof (Z.mod_pos_bound (Z.abs n - 1) N HN) as Hm.
  split; [nia|].
  rewrite Z.mod_add by lia. reflexivity.
Qed.

Lemma rem_rotate (p a n N : Z) :
  0 < N -> 0 <= p -> 0 <= a -> a mod N = n mod N ->
  Z.rem (p + a) N = (p + n) mod N.
Proof.
  intros HN Hp Ha E.
  rewrite Z.rem_mod_nonneg by lia.
  rewrite (Z.add_mod p a), E, <- Z.add_mod by lia. reflexivity.
Qed.

Lemma shift_lanes_tail (N n a : Z) :
  SlabFab.normalize_shift n N = Ok a ->
  N <> 0 ->
  forall (m : nat) (k : Z) (s : SlabFab.t),
    1 <= k ->
    N <= Z.of_nat (length (SlabFab.m_pTable s)) ->
    exists tbl' : list Z,
      foldM (SlabFab.shift_lane N n) (Zseq k m) s = Ok (SlabFab.with_pTable s tbl')
      /\ length tbl' = length (SlabFab.m_pTable s)
      /\ (forall i : Z, 0 <= i ->
            List.nth (Z.to_nat i) tbl' 0
            = if (k <=? i) && (i <? k + Z.of_nat m) && (i <? N)
              then Z.rem (entry s i + a) N
              else entry s i).
Proof.
  intros Ha HN. induction m as [|m IH]; intros k s Hk Hlen.
  - exists (SlabFab.m_pTable s). cbn. split; [destruct s; reflexivity|].
    split; [reflexivity|]. intros i Hi.
    destruct (Z.leb_spec k i), (Z.ltb_spec i (k + 0)); cbn; try reflexivity; lia.
  - rewrite Zseq_cons. cbn [foldM].
    unfold SlabFab.shift_lane at 1.
    destruct (Z.ltb_spec k N) as [HkN|HkN].
    + destruct (Z.eqb_spec k 0) as [E|_]; [lia|]. cbn [bind]. rewrite Ha. cbn [bind].
      unfold array_get, array_set, int_rem.
      destruct (Z.leb_spec 0 k); [|lia].
      destruct (Z.ltb_spec k (Z.of_nat (length (SlabFab.m_pTable s)))); [|lia].
      destruct (Z.eqb_spec N 0) as [E|_]; [lia|]. cbn [andb bind].
      set (tbl1 := list_set (SlabFab.m_pTable s) (Z.to_nat k)
                     (Z.rem (List.nth (Z.to_nat k) (SlabFab.m_pTable s) 0 + a) N)).
      destruct (IH (k + 1) (SlabFab.with_pTable s tbl1) ltac:(lia)) as (tbl' & Hf & Hl & He).
      { cbn. unfold tbl1. rewrite list_set_length. exact Hlen. }
      exists tbl'. split; [rewrite Hf; destruct s; reflexivity|].
      split; [rewrite Hl; cbn; unfold tbl1; apply list_set_length|].
      intros i Hi. rewrite (He i Hi). unfold entry. cbn [SlabFab.m_pTable SlabFab.with_pTable].
      unfold tbl1. rewrite list_set_nth by lia.
      destruct (Nat.eqb_spec (Z.to_nat i) (Z.to_nat k)) as [E|E].
      * assert (i = k) by lia. subst i.
        destruct (Z.leb_spec (k + 1) k); [lia|].
        destruct (Z.leb_spec k k); [|lia].
        destruct (Z.ltb_spec k (k + Z.of_nat (S m))); [|lia].
        destruct (Z.ltb_spec k N); [|lia]. reflexivity.
      * destruct (Z.leb_spec (k + 1) i), (Z.leb_spec k i),
          (Z.ltb_spec i (k + 1 + Z.of_nat m)), (Z.ltb_spec i (k + Z.of_nat (S m)));
          cbn [andb]; try reflexivity; lia.
    + cbn [bind].
      destruct (IH (k + 1) s ltac:(lia) Hlen) as (tbl' & Hf & Hl & He).
      exists tbl'. split; [exact Hf|]. split; [exact Hl|].
      intros i Hi. rewrite (He i Hi).
      destruct (Z.leb_spec (k + 1) i), (Z.leb_spec k i),
        (Z.ltb_spec i (k + 1 + Z.of_nat m)), (Z.ltb_spec i (k + Z.of_nat (S m))),
        (Z.ltb_spec i N); cbn [andb]; try reflexivity; lia.
Qed.

Lemma CH_assert_ok (b : bool) (u : unit) : CH_assert b = Ok u -> b = true.
Proof. destruct b; [reflexivity | discriminate]. Qed.

(** Split a successful sequence into its successful first step and the rest. *)
Ltac inv_bind H :=
  match type of H with
  | bind ?c _ = Ok _ =>
      let E := fresh "E" in
      destruct c eqn:E; cbn [bind] in H; [|discriminate H]
  end.

Lemma numSlab_ok (s : SlabFab.t) :
  IntVect.axis_ok (SlabFab.m_nrmDir s) = true ->
  SlabFab.numSlab s = Ok (slab_count s).
Proof.
  intros H. unfold SlabFab.numSlab, IntVect.get. rewrite H. reflexivity.
Qed.

Lemma moved_box_dimensions (s : SlabFab.t) (n : Z) :
  IntVect.axis_ok (SlabFab.m_nrmDir s) = true ->
  Box.dimensions (moved_box s n) = Box.dimensions (SlabFab.m_box s).
Proof.
  intros H. apply axis_ok_cases in H.
  unfold moved_box, slab_lo, slab_hi, Box.dimensions.
  destruct (SlabFab.m_box s) as [[l0 l1 l2] [h0 h1 h2]].
  destruct H as [->|[->| ->]]; cbn; f_equal; lia.
Qed.

Lemma shift_spec (blockDim n : Z) (s : SlabFab.t) :
  IntVect.axis_ok (SlabFab.m_nrmDir s) = true ->
  n <> 0 ->
  0 < slab_count s ->
  slab_count s <= blockDim ->
  slab_count s <= Z.of_nat (length (SlabFab.m_pTable s)) ->
  exists (tbl' : list Z) (a : Z),
    SlabFab.shift blockDim n s
    = Ok (SlabFab.with_pTable (SlabFab.with_box s (moved_box s n)) tbl')
    /\ length tbl' = length (SlabFab.m_pTable s)
    /\ SlabFab.normalize_shift n (slab_count s) = Ok a
    /\ 0 <= a /\ a mod slab_count s = n mod slab_count s
    /\ (forall i : Z, 0 <= i ->
          List.nth (Z.to_nat i) tbl' 0
          = if i <? slab_count s then Z.rem (entry s i + a) (slab_count s)
            else entry s i).
Proof.
  intros Hax Hn HN Hblock Hlen.
  destruct (normalize_shift_ok n (slab_count s) HN Hn) as (a & Ha & Ha0 & Hamod).
  unfold SlabFab.shift.
  destruct (Z.eqb_spec n 0) as [E|_]; [lia|].
  rewrite (numSlab_ok s Hax). cbn [bind].
  destruct (Z.leb_spec (slab_count s) blockDim); [|lia]. cbn [CH_assert bind].
  rewrite lanes_cons by lia. cbn [foldM].
  unfold SlabFab.shift_lane at 1.
  destruct (Z.ltb_spec 0 (slab_count s)); [|lia].
  cbn [Z.eqb]. rewrite (shift_dir_ok n _ _ Hax). cbn [bind].
  change (SlabFab.with_box s _) with (SlabFab.with_box s (moved_box s n)).
  rewrite Ha. cbn [bind].
  unfold array_get, array_set, int_rem.
  cbn [SlabFab.m_pTable SlabFab.with_box].
  destruct (Z.ltb_spec 0 (Z.of_nat (length (SlabFab.m_pTable s)))); [|lia].
  destruct (Z.eqb_spec (slab_count s) 0) as [E|_]; [lia|].
  change ((0 <=? 0) && true) with true. cbn [bind].
  set (tbl1 := list_set (SlabFab.m_pTable s) (Z.to_nat 0)
                 (Z.rem (List.nth (Z.to_nat 0) (SlabFab.m_pTable s) 0 + a) (slab_count s))).
  set (s1 := SlabFab.with_pTable (SlabFab.with_box s (moved_box s n)) tbl1).
  destruct (shift_lanes_tail (slab_count s) n a Ha ltac:(lia)
              (Z.to_nat (blockDim - 1)) 1 s1 ltac:(lia))
    as (tbl' & Hf & Hl & He).
  { cbn. unfold tbl1. rewrite list_set_length. exact Hlen. }
  exists tbl', a. rewrite Hf.
  split; [reflexivity|].
  split; [rewrite Hl; cbn; unfold tbl1; apply list_set_length|].
  split; [reflexivity|]. split; [exact Ha0|]. split; [exact Hamod|].
  intros i Hi. rewrite (He i Hi).
  unfold entry, s1. cbn [SlabFab.m_pTable SlabFab.with_pTable].
  unfold tbl1. rewrite list_set_nth by lia.
  destruct (Nat.eqb_spec (Z.to_nat i) (Z.to_nat 0)) as [E|E].
  - assert (i = 0) by lia. subst i.
    destruct (Z.ltb_spec 0 (slab_count s)); [|lia]. reflexivity.
  - destruct (Z.leb_spec 1 i), (Z.ltb_spec i (1 + Z.of_nat (Z.to_nat (blockDim - 1)))),
      (Z.ltb_spec i (slab_count s)); cbn [andb]; try reflexivity; lia.
Qed.

Lemma slab_count_shifted (s : SlabFab.t) (n : Z) (tbl : list Z) :
  IntVect.axis_ok (SlabFab.m_nrmDir s) = true ->
  slab_count (SlabFab.with_pTable (SlabFab.with_box s (moved_box s n)) tbl)
  = slab_count s.
Proof.
  intros H. unfold slab_count. cbn. unfold SlabFab.m_box at 1. cbn.
  rewrite (moved_box_dimensions s n H). reflexivity.
Qed.

(** ** What [define] sets up *)

Lemma selectLoadMethod_cases (blockDim a_numThr : Z) (s s' : SlabFab.t) :
  SlabFab.selectLoadMethod blockDim a_numThr s = Ok s' ->
  SlabFab.m_numPntSlab s <= a_numThr
  /\ ((blockDim = a_numThr /\ blockDim = SlabFab.m_numPntSlab s
       /\ s' = SlabFab.with_numSubBox s (-3))
      \/ (~ (blockDim = a_numThr /\ blockDim = SlabFab.m_numPntSlab s)
          /\ s' = SlabFab.with_numSubBox s (-2))).
Proof.
  unfold SlabFab.selectLoadMethod. intros H.
  destruct (Z.eqb_spec blockDim a_numThr) as [E1|E1];
    destruct (Z.eqb_spec blockDim (SlabFab.m_numPntSlab s)) as [E2|E2];
    cbn [andb] in H;
    try (destruct (Z.leb_spec (SlabFab.m_numPntSlab s) a_numThr);
         [|discriminate H]);
    inversion H; subst; split; try lia;
    solve [left; auto | right; split; [lia|reflexivity]].
Qed.

Lemma setStride_spec (f : CudaFab.t) :
  CudaFab.setStride f
  = if IntVect.le (Box.m_lo (CudaFab.m_box f)) (Box.m_hi (CudaFab.m_box f))
    then Ok (CudaFab.mk (CudaFab.m_box f) (Box.getStride (CudaFab.m_box f))
               (CudaFab.m_ncomp f) (Box.size (CudaFab.m_box f)) (CudaFab.m_data f))
    else Fault AssertFailed.
Proof.
  unfold CudaFab.setStride, CH_assert, bind.
  destruct (IntVect.le _ _); [|reflexivity].
  f_equal. unfold Box.getStride, Box.size. f_equal. ring.
Qed.

Lemma define_setup_spec (MxSz blockDim a_alias : Z) (a_box : Box.t)
    (a_ncomp a_nrmDir a_compBegSrc a_numThrLS : Z) (s0 s1 : SlabFab.t) :
  SlabFab.define_setup MxSz blockDim a_alias a_box a_ncomp a_nrmDir
    a_compBegSrc a_numThrLS s0 = Ok s1 ->
  SlabFab.m_box s1 = a_box
  /\ SlabFab.m_ncomp s1 = a_ncomp
  /\ SlabFab.m_nrmDir s1 = a_nrmDir
  /\ SlabFab.m_compBegSrc s1 = a_compBegSrc
  /\ SlabFab.m_pTable s1 = Zseq 0 (Z.to_nat MxSz)
  /\ a_numThrLS <= blockDim
  /\ SlabFab.m_numPntSlab s1 <= a_numThrLS
  /\ (SlabFab.m_numSubBox s1 = -3
      \/ SlabFab.m_numSubBox s1 = -2)
  /\ (SlabFab.m_numSubBox s1 = -3
      <-> blockDim = a_numThrLS /\ blockDim = SlabFab.m_numPntSlab s1)
  /\ (0 <= a_ncomp -> wf MxSz blockDim s1).
Proof.
  unfold SlabFab.define_setup. intros H.
  rewrite setStride_spec in H. proj_simpl.
  destruct (IntVect.le (Box.m_lo a_box) (Box.m_hi a_box)) eqn:E0;
    [|discriminate H].
  cbn [bind] in H. proj_simpl.
  unfold IntVect.set, IntVect.get in H.
  destruct (IntVect.axis_ok a_nrmDir) eqn:Hax; [|discriminate H].
  cbn [bind] in H.
  inv_bind H. apply CH_assert_ok in E. apply andb_true_iff in E.
  destruct E as [Hn1 Hn2]. apply Z.ltb_lt in Hn1. apply Z.leb_le in Hn2.
  inv_bind H. apply CH_assert_ok in E. apply Z.leb_le in E.
  inv_bind H. injection H as <-.
  apply selectLoadMethod_cases in E1. proj_simpl.
  destruct E1 as [Hle Hcases].
  assert (Hsub : (SlabFab.m_numSubBox a1 = -3
                  /\ blockDim = a_numThrLS /\ blockDim = SlabFab.m_numPntSlab a1)
                 \/ (SlabFab.m_numSubBox a1 = -2
                     /\ ~ (blockDim = a_numThrLS
                           /\ blockDim = SlabFab.m_numPntSlab a1))).
  { destruct Hcases as [(H1 & H2 & ->)|(H1 & ->)]; cbn; [left|right]; auto. }
  assert (Hrest : SlabFab.base a1
                  = CudaFab.mk a_box (Box.getStride a_box) a_ncomp (Box.size a_box)
                      (a_alias + Box.vecToLin0
                                   (IntVect.neg (IntVect.upd (Box.m_lo a_box) a_nrmDir 0))
                                   (Box.getStride a_box))
                  /\ SlabFab.m_pTable a1 = Zseq 0 (Z.to_nat MxSz)
                  /\ SlabFab.m_nrmDir a1 = a_nrmDir
                  /\ SlabFab.m_numPntSlab a1
                     = IntVect.product (IntVect.upd (Box.dimensions a_box) a_nrmDir 1)).
  { destruct Hcases as [(_ & _ & ->)|(_ & ->)]; cbn; auto. }
  destruct Hrest as (Hbase & Htbl & Hnrm & Hpnt).
  unfold SlabFab.m_box, SlabFab.m_ncomp. proj_simpl. rewrite Hbase. proj_simpl.
  split; [reflexivity|]. split; [reflexivity|]. split; [exact Hnrm|].
  split; [reflexivity|]. split; [exact Htbl|]. split; [exact E|].
  split; [rewrite Hpnt; exact Hle|].
  split; [destruct Hsub as [(? & _)|(? & _)]; auto|].
  split; [destruct Hsub as [(? & ?)|(? & ?)]; split; intros; try lia; auto|].
  intros Hnc.
  constructor; unfold SlabFab.m_box, SlabFab.m_stride, SlabFab.m_size,
    SlabFab.m_ncomp, slab_count, SlabFab.m_box; proj_simpl;
    rewrite ?Hbase, ?Htbl, ?Hnrm; proj_simpl;
    try reflexivity; try assumption.
  - rewrite Zseq_length. lia.
  - lia.
  - destruct Hsub as [(? & ? & ?)|(? & ?)]; [left|right]; split; auto; lia.
Qed.



Lemma define_fab (T : Type) (MxSz blockDim a_alias : Z) (a_box : Box.t)
    (a_ncomp a_nrmDir a_locNDBeg a_locNDEnd a_compBegSrc : Z)
    (src : CudaFab.t) (gmem : mem T) (a_numThrLS : Z) (g g' : SlabFab.group T) :
  0 < blockDim ->
  SlabFab.define MxSz blockDim a_alias a_box a_ncomp a_nrmDir a_locNDBeg
    a_locNDEnd a_compBegSrc src gmem a_numThrLS g = Ok g' ->
  SlabFab.define_setup MxSz blockDim a_alias a_box a_ncomp a_nrmDir
    a_compBegSrc a_numThrLS (SlabFab.fab g) = Ok (SlabFab.fab g').
Proof.
  intros Hb H. unfold SlabFab.define in H.
  rewrite lanes_cons in H at 1 by exact Hb.
  cbn [foldM] in H. change (0 =? 0) with true in H. cbv beta iota in H.
  destruct (SlabFab.define_setup MxSz blockDim a_alias a_box a_ncomp a_nrmDir
              a_compBegSrc a_numThrLS (SlabFab.fab g)) as [s1|f] eqn:E;
    [|discriminate H].
  cbn [bind] in H.
  rewrite foldM_skip in H.
  2:{ intros x Hx. apply Zseq_In in Hx.
      destruct (Z.eqb_spec x 0); [lia|reflexivity]. }
  cbn [bind] in H.
  f_equal. symmetry.
  apply (foldM_ok_inv _ (fun g0 : SlabFab.group T => SlabFab.fab g0 = s1)) in H.
  - exact H.
  - intros t g0 g1 Hstep Hfab. unfold SlabFab.define_lane in Hstep.
    inv_bind Hstep. inv_bind Hstep. injection Hstep as <-. cbn. exact Hfab.
  - reflexivity.
Qed.

(** ** The permutation table stays a permutation *)

Lemma firstn_Zseq (a : Z) (n m : nat) :
  (n <= m)%nat -> firstn n (Zseq a m) = Zseq a n.
Proof.
  revert a m. induction n as [|n IH]; intros a m H; [reflexivity|].
  destruct m as [|m]; [lia|].
  rewrite !Zseq_cons. cbn [firstn]. f_equal. apply IH. lia.
Qed.

Lemma mod_rotate_inj (N r i j : Z) :
  0 <= i < N -> 0 <= j < N -> (i + r) mod N = (j + r) mod N -> i = j.
Proof.
  intros Hi Hj E.
  pose proof (Z.div_mod (i + r) N ltac:(lia)) as Di.
  pose proof (Z.div_mod (j + r) N ltac:(lia)) as Dj.
  rewrite E in Di.
  assert (Hd : i - j = N * ((i + r) / N - (j + r) / N)) by lia.
  assert (Hk : (i + r) / N - (j + r) / N = 0) by nia.
  rewrite Hk in Hd. lia.
Qed.

Lemma rotate_Zseq_perm (N n : Z) :
  0 < N ->
  Permutation (map (fun p => (p + n) mod N) (Zseq 0 (Z.to_nat N)))
              (Zseq 0 (Z.to_nat N)).
Proof.
  intros HN. apply NoDup_Permutation.
  - apply NoDup_map_NoDup_ForallPairs; [|apply Zseq_NoDup].
    intros x y Hx Hy E. apply Zseq_In in Hx, Hy.
    apply (mod_rotate_inj N n); lia.
  - apply Zseq_NoDup.
  - intros x. rewrite in_map_iff, Zseq_In. split.
    + intros (p & <- & _). pose proof (Z.mod_pos_bound (p + n) N HN). lia.
    + intros Hx. exists ((x - n) mod N). split.
      * rewrite Zplus_mod_idemp_l. replace (x - n + n) with x by ring.
        apply Z.mod_small. lia.
      * apply Zseq_In. pose proof (Z.mod_pos_bound (x - n) N HN). lia.
Qed.

Lemma permutation_entries (s : SlabFab.t) :
  table_is_permutation s ->
  slab_count s <= Z.of_nat (length (SlabFab.m_pTable s)) ->
  forall i : Z, 0 <= i < slab_count s -> 0 <= entry s i < slab_count s.
Proof.
  intros Hperm Hlen i Hi.
  assert (Hin : In (entry s i)
                  (firstn (Z.to_nat (slab_count s)) (SlabFab.m_pTable s))).
  { assert (Heq : entry s i
                   = List.nth (Z.to_nat i)
                       (firstn (Z.to_nat (slab_count s)) (SlabFab.m_pTable s)) 0).
    { rewrite nth_firstn.
      destruct (Nat.ltb_spec (Z.to_nat i) (Z.to_nat (slab_count s)));
        [reflexivity | lia]. }
    rewrite Heq. apply nth_In. rewrite length_firstn. lia. }
  apply (Permutation_in _ Hperm) in Hin. apply Zseq_In in Hin. lia.
Qed.

Lemma permutation_length (s : SlabFab.t) :
  table_is_permutation s ->
  slab_count s <= Z.of_nat (length (SlabFab.m_pTable s)).
Proof.
  intros Hperm. apply Permutation_length in Hperm.
  rewrite length_firstn, Zseq_length in Hperm. lia.
Qed.

Lemma shift_keeps_permutation (blockDim n : Z) (s : SlabFab.t) :
  IntVect.axis_ok (SlabFab.m_nrmDir s) = true ->
  0 < slab_count s ->
  slab_count s <= blockDim ->
  table_is_permutation s ->
  exists s' : SlabFab.t,
    SlabFab.shift blockDim n s = Ok s'
    /\ SlabFab.m_nrmDir s' = SlabFab.m_nrmDir s
    /\ slab_count s' = slab_count s
    /\ table_is_permutation s'.
Proof.
  intros Hax HN Hblock Hperm.
  pose proof (permutation_length s Hperm) as Hlen.
  destruct (Z.eq_dec n 0) as [->|Hn].
  { exists s. unfold SlabFab.shift. cbn. auto. }
  destruct (shift_spec blockDim n s Hax Hn HN Hblock Hlen)
    as (tbl' & a & Hs & Hl & _ & Ha0 & Hamod & He).
  eexists. split; [exact Hs|]. split; [reflexivity|].
  rewrite (slab_count_shifted s n tbl' Hax). split; [reflexivity|].
  unfold table_is_permutation.
  rewrite (slab_count_shifted s n tbl' Hax).
  cbn [SlabFab.m_pTable SlabFab.with_pTable].
  set (N := slab_count s) in *.
  assert (Hmap : firstn (Z.to_nat N) tbl'
                 = map (fun p => (p + n) mod N)
                       (firstn (Z.to_nat N) (SlabFab.m_pTable s))).
  { apply (nth_ext _ _ 0 ((0 + n) mod N)).
    - rewrite length_map, !length_firstn. lia.
    - intros k Hk. rewrite length_firstn in Hk.
      rewrite (map_nth (fun p => (p + n) mod N)).
      rewrite !nth_firstn.
      destruct (Nat.ltb_spec k (Z.to_nat N)); [|lia].
      specialize (He (Z.of_nat k) ltac:(lia)).
      rewrite Nat2Z.id in He. rewrite He.
      destruct (Z.ltb_spec (Z.of_nat k) N); [|lia].
      pose proof (permutation_entries s Hperm Hlen (Z.of_nat k) ltac:(lia)) as Hent.
      rewrite (rem_rotate _ a n N) by lia.
      unfold entry. rewrite Nat2Z.id. reflexivity. }
  rewrite Hmap.
  eapply Permutation_trans; [apply Permutation_map; exact Hperm|].
  apply rotate_Zseq_perm. exact HN.
Qed.

(** ** [shift(int)] with the range of [int] *)

Lemma extent_checked_spec (lo hi : Z) :
  Box.extent_checked lo hi
  = if in_int (hi - lo) && in_int (hi - lo + 1) then Ok (hi - lo + 1)
    else Fault IntOverflow.
Proof.
  unfold Box.extent_checked, int_result.
  destruct (in_int (hi - lo)); cbn [bind andb]; reflexivity.
Qed.

Lemma dimensions_checked_ok (b : Box.t) (d : IntVect.t) :
  Box.dimensions_checked b = Ok d -> d = Box.dimensions b.
Proof.
  unfold Box.dimensions_checked. rewrite !extent_checked_spec. intros H.
  repeat match type of H with
         | context [if ?c then _ else _] => destruct c; cbn [bind] in H
         end; try discriminate H.
  injection H as <-. reflexivity.
Qed.

(** A run with the range of [int] that returns is a run of the model
    without it. *)
Lemma foldM_refines {S X : Type} (body_checked body : X -> S -> Res S) :
  (forall x s s', body_checked x s = Ok s' -> body x s = Ok s') ->
  forall xs s s', foldM body_checked xs s = Ok s' -> foldM body xs s = Ok s'.
Proof.
  intros Hstep xs. induction xs as [|x xs IH]; intros s s' H; cbn in *.
  - exact H.
  - destruct (body_checked x s) as [s1|f] eqn:E; cbn [bind] in H; [|discriminate H].
    rewrite (Hstep _ _ _ E). cbn [bind]. apply IH. exact H.
Qed.

Lemma foldM_runs {S X : Type} (body : X -> S -> Res S) (I : S -> Prop)
    (xs : list X) :
  (forall x s, In x xs -> I s -> exists s', body x s = Ok s' /\ I s') ->
  forall s, I s -> exists s', foldM body xs s = Ok s' /\ I s'.
Proof.
  induction xs as [|x xs IH]; intros Hstep s HI; cbn.
  - exists s. auto.
  - destruct (Hstep x s (or_introl eq_refl) HI) as (s1 & E & H1).
    rewrite E. cbn [bind]. apply IH; [|exact H1].
    intros y s0 Hy. apply Hstep. right. exact Hy.
Qed.

Lemma int_rem_checked_ok (a b r : Z) :
  int_rem_checked a b = Ok r -> int_rem a b = Ok r.
Proof.
  unfold int_rem_checked. intros H. inv_bind H. exact H.
Qed.

Lemma int_div_checked_ok (a b q : Z) :
  int_div_checked a b = Ok q -> int_div a b = Ok q.
Proof.
  unfold int_div_checked. intros H. inv_bind H.
  apply int_result_ok in H. destruct H as [-> _]. reflexivity.
Qed.

Lemma normalize_shift_checked_ok (n N a : Z) :
  SlabFab.normalize_shift_checked n N = Ok a -> SlabFab.normalize_shift n N = Ok a.
Proof.
  unfold SlabFab.normalize_shift_checked, SlabFab.normalize_shift. intros H.
  inv_bind H. apply int_result_ok in E. destruct E as [-> _].
  inv_bind H. apply int_result_ok in E. destruct E as [-> _].
  inv_bind H. apply int_div_checked_ok in E. rewrite E. cbn [bind].
  inv_bind H. apply int_result_ok in E0. destruct E0 as [-> _].
  inv_bind H. apply int_result_ok in E0. destruct E0 as [-> _].
  apply int_result_ok in H. destruct H as [-> _]. reflexivity.
Qed.

Lemma shift_dir_checked_ok (n d : Z) (b b' : Box.t) :
  Box.shift_dir_checked n d b = Ok b' -> Box.shift_dir n d b = Ok b'.
Proof.
  unfold Box.shift_dir_checked, Box.shift_dir, IntVect.get, IntVect.set, int_result.
  destruct (IntVect.axis_ok d); cbn [bind]; [|discriminate].
  destruct (in_int _); cbn [bind]; [|discriminate].
  destruct (in_int _); cbn [bind]; [|discriminate].
  intros H. exact H.
Qed.

Lemma shift_lane_checked_ok (N n t : Z) (s s' : SlabFab.t) :
  SlabFab.shift_lane_checked N n t s = Ok s' -> SlabFab.shift_lane N n t s = Ok s'.
Proof.
  assert (Hrest : forall s0 : SlabFab.t,
            (a_i <- SlabFab.normalize_shift_checked n N ;;
             p <- array_get (SlabFab.m_pTable s0) t ;;
             o <- int_result (p + a_i) ;;
             r <- int_rem_checked o N ;;
             tbl <- array_set (SlabFab.m_pTable s0) t r ;;
             Ok (SlabFab.with_pTable s0 tbl)) = Ok s' ->
            (a_i <- SlabFab.normalize_shift n N ;;
             p <- array_get (SlabFab.m_pTable s0) t ;;
             r <- int_rem (p + a_i) N ;;
             tbl <- array_set (SlabFab.m_pTable s0) t r ;;
             Ok (SlabFab.with_pTable s0 tbl)) = Ok s').
  { intros s0 H.
    destruct (SlabFab.normalize_shift_checked n N) as [a|f] eqn:Ea;
      cbn [bind] in H; [|discriminate H].
    rewrite (normalize_shift_checked_ok _ _ _ Ea). cbn [bind].
    destruct (array_get (SlabFab.m_pTable s0) t) as [p|f]; cbn [bind] in *;
      [|discriminate H].
    unfold int_result in H.
    destruct (in_int (p + a)); cbn [bind] in H; [|discriminate H].
    destruct (int_rem_checked (p + a) N) as [r|f] eqn:Er; cbn [bind] in H;
      [|discriminate H].
    rewrite (int_rem_checked_ok _ _ _ Er). cbn [bind]. exact H. }
  unfold SlabFab.shift_lane_checked, SlabFab.shift_lane. intros H.
  destruct (t <? N); [|exact H].
  destruct (t =? 0).
  - destruct (Box.shift_dir_checked n (SlabFab.m_nrmDir s) (SlabFab.m_box s))
      as [b|f] eqn:Eb; cbn [bind] in H; [|discriminate H].
    rewrite (shift_dir_checked_ok _ _ _ _ Eb). cbn [bind].
    apply Hrest. exact H.
  - cbn [bind] in *. apply Hrest. exact H.
Qed.

Lemma numSlab_checked_ok (s : SlabFab.t) (N : Z) :
  SlabFab.numSlab_checked s = Ok N -> SlabFab.numSlab s = Ok N.
Proof.
  unfold SlabFab.numSlab_checked, SlabFab.numSlab. intros H.
  destruct (Box.dimensions_checked (SlabFab.m_box s)) as [d|f] eqn:E;
    cbn [bind] in H; [|discriminate H].
  apply dimensions_checked_ok in E. subst d. exact H.
Qed.

Lemma shift_checked_ok (blockDim n : Z) (s s' : SlabFab.t) :
  SlabFab.shift_checked blockDim n s = Ok s' -> SlabFab.shift blockDim n s = Ok s'.
Proof.
  unfold SlabFab.shift_checked, SlabFab.shift. intros H.
  destruct (n =? 0); [exact H|].
  destruct (SlabFab.numSlab_checked s) as [N|f] eqn:E; cbn [bind] in H;
    [|discriminate H].
  rewrite (numSlab_checked_ok _ _ E). cbn [bind].
  destruct (CH_assert (N <=? blockDim)); cbn [bind] in *; [|discriminate H].
  apply (foldM_refines _ _ (shift_lane_checked_ok N n)). exact H.
Qed.

Lemma shifts_checked_ok (blockDim : Z) (ns : list Z) (s s' : SlabFab.t) :
  shifts_checked blockDim ns s = Ok s' -> shifts blockDim ns s = Ok s'.
Proof. apply foldM_refines. apply shift_checked_ok. Qed.

(** The normalized amount within [int]. *)
Lemma normalize_shift_checked_runs (n N : Z) :
  0 < N -> n <> 0 -> 2 * (Z.abs n + N) <= INT_MAX ->
  exists a : Z,
    SlabFab.normalize_shift_checked n N = Ok a
    /\ 0 <= a /\ a + N <= INT_MAX /\ a mod N = n mod N.
Proof.
  change INT_MAX with 2147483647. intros HN Hn Hb.
  destruct (normalize_shift_ok n N HN Hn) as (a & Ha & Ha0 & Hamod).
  exists a.
  unfold SlabFab.normalize_shift, int_div in Ha.
  destruct (Z.eqb_spec N 0) as [E|_]; [lia|]. cbn [bind] in Ha.
  injection Ha as Ha.
  rewrite Z.quot_div_nonneg in Ha by lia.
  pose proof (Z.div_mod (Z.abs n - 1) N ltac:(lia)) as Hdm.
  pose proof (Z.mod_pos_bound (Z.abs n - 1) N HN) as Hm.
  assert (Hq : 0 <= (Z.abs n - 1) / N) by (apply Z.div_pos; lia).
  assert (Hprod : ((Z.abs n - 1) / N + 1) * N <= Z.abs n - 1 + N) by nia.
  assert (Hprod0 : 0 <= ((Z.abs n - 1) / N + 1) * N) by nia.
  assert (Hq1 : (Z.abs n - 1) / N <= Z.abs n - 1).
  { apply Z.div_le_upper_bound; [lia|]. nia. }
  split; [|split; [exact Ha0|split; [lia|exact Hamod]]].
  unfold SlabFab.normalize_shift_checked.
  rewrite int_result_in by (apply in_int_spec; lia). cbn [bind].
  rewrite int_result_in by (apply in_int_spec; lia). cbn [bind].
  rewrite int_div_checked_spec by (apply in_int_spec; lia).
  destruct (Z.eqb_spec N 0) as [E|_]; [lia|].
  destruct (Z.eqb_spec N (-1)) as [E|_]; [lia|]. rewrite andb_false_r. cbn [bind].
  rewrite Z.quot_div_nonneg by lia.
  rewrite int_result_in by (apply in_int_spec; lia). cbn [bind].
  rewrite int_result_in by (apply in_int_spec; lia). cbn [bind].
  rewrite int_result_in by (apply in_int_spec; lia).
  rewrite Ha. reflexivity.
Qed.

(** From [2^30] on the normalization leaves the range of [int]. *)
Lemma normalize_shift_checked_overflows (n N : Z) :
  0 < N -> 2 ^ 30 <= n ->
  SlabFab.normalize_shift_checked n N = Fault IntOverflow.
Proof.
  change (2 ^ 30) with 1073741824. intros HN Hn.
  unfold SlabFab.normalize_shift_checked, int_div_checked, int_div.
  rewrite Z.abs_eq by lia.
  destruct (Z.eqb_spec N 0) as [E|_]; [lia|].
  pose proof (Z.div_mod (n - 1) N ltac:(lia)) as Hdm.
  pose proof (Z.mod_pos_bound (n - 1) N HN) as Hm.
  unfold int_result at 1.
  destruct (in_int n) eqn:E0; cbn [bind]; [|reflexivity].
  unfold int_result at 1.
  destruct (in_int (n - 1)) eqn:E1; cbn [bind]; [|reflexivity].
  rewrite Z.quot_div_nonneg by lia.
  unfold int_result at 1.
  destruct (in_int ((n - 1) / N)) eqn:E2; cbn [bind]; [|reflexivity].
  unfold int_result at 1.
  destruct (in_int ((n - 1) / N + 1)) eqn:E3; cbn [bind]; [|reflexivity].
  unfold int_result at 1.
  destruct (in_int (((n - 1) / N + 1) * N)) eqn:E4; cbn [bind]; [|reflexivity].
  apply int_result_out, in_int_false. right. nia.
Qed.

Lemma moved_box_dimensions_checked (s : SlabFab.t) (n : Z) :
  IntVect.axis_ok (SlabFab.m_nrmDir s) = true ->
  Box.dimensions_checked (moved_box s n) = Box.dimensions_checked (SlabFab.m_box s).
Proof.
  intros H. apply axis_ok_cases in H.
  unfold moved_box, slab_lo, slab_hi, Box.dimensions_checked, Box.extent_checked.
  destruct (SlabFab.m_box s) as [[l0 l1 l2] [h0 h1 h2]].
  destruct H as [->|[->| ->]];
    cbn [IntVect.upd IntVect.nth Z.eqb Pos.eqb IntVect.iv0 IntVect.iv1 IntVect.iv2
         Box.m_lo Box.m_hi].
  - replace (h0 + n - (l0 + n)) with (h0 - l0) by ring. reflexivity.
  - replace (h1 + n - (l1 + n)) with (h1 - l1) by ring. reflexivity.
  - replace (h2 + n - (l2 + n)) with (h2 - l2) by ring. reflexivity.
Qed.

Lemma numSlab_checked_count (s : SlabFab.t) :
  IntVect.axis_ok (SlabFab.m_nrmDir s) = true ->
  is_ok (SlabFab.numSlab_checked s) = true ->
  SlabFab.numSlab_checked s = Ok (slab_count s).
Proof.
  intros Hax H. destruct (SlabFab.numSlab_checked s) as [N|f] eqn:E; [|discriminate H].
  pose proof (numSlab_checked_ok s N E) as E'.
  rewrite (numSlab_ok s Hax) in E'. congruence.
Qed.

Lemma shift_dir_checked_runs (n d : Z) (b : Box.t) :
  IntVect.axis_ok d = true ->
  in_int (IntVect.nth (Box.m_lo b) d + n) = true ->
  in_int (IntVect.nth (Box.m_hi b) d + n) = true ->
  Box.shift_dir_checked n d b
  = Ok (Box.mk (IntVect.upd (Box.m_lo b) d (IntVect.nth (Box.m_lo b) d + n))
               (IntVect.upd (Box.m_hi b) d (IntVect.nth (Box.m_hi b) d + n))).
Proof.
  intros Hd Hl Hh. unfold Box.shift_dir_checked, IntVect.get, IntVect.set.
  rewrite Hd. cbn [bind]. rewrite (int_result_in _ Hl). cbn [bind].
  rewrite (int_result_in _ Hh). reflexivity.
Qed.

(** One lane of the rotation within [int]: it runs, and keeps the entries
    of the table among the slots. *)
Lemma shift_lane_checked_runs (N n a t : Z) (s : SlabFab.t) :
  0 < N ->
  SlabFab.normalize_shift_checked n N = Ok a ->
  0 <= a -> a + N <= INT_MAX ->
  1 <= t ->
  N <= Z.of_nat (length (SlabFab.m_pTable s)) ->
  (forall i : Z, 0 <= i < N -> 0 <= entry s i < N) ->
  exists s' : SlabFab.t,
    SlabFab.shift_lane_checked N n t s = Ok s'
    /\ N <= Z.of_nat (length (SlabFab.m_pTable s'))
    /\ (forall i : Z, 0 <= i < N -> 0 <= entry s' i < N).
Proof.
  change INT_MAX with 2147483647.
  intros HN Ha Ha0 HaN Ht Hlen Hent. unfold SlabFab.shift_lane_checked.
  destruct (Z.ltb_spec t N) as [HtN|HtN]; [|exists s; auto].
  destruct (Z.eqb_spec t 0) as [E|_]; [lia|]. cbn [bind]. rewrite Ha. cbn [bind].
  unfold array_get, array_set.
  destruct (Z.leb_spec 0 t); [|lia].
  destruct (Z.ltb_spec t (Z.of_nat (length (SlabFab.m_pTable s)))); [|lia].
  cbn [andb bind]. fold (entry s t).
  pose proof (Hent t ltac:(lia)) as Hp.
  rewrite int_result_in by (apply in_int_spec; lia). cbn [bind].
  unfold int_rem_checked.
  rewrite int_div_checked_spec by (apply in_int_spec; lia).
  destruct (Z.eqb_spec N 0) as [E|_]; [lia|].
  destruct (Z.eqb_spec N (-1)) as [E|_]; [lia|]. rewrite andb_false_r. cbn [bind].
  unfold int_rem. destruct (Z.eqb_spec N 0) as [E|_]; [lia|]. cbn [bind].
  eexists. split; [reflexivity|].
  cbn [SlabFab.m_pTable SlabFab.with_pTable]. rewrite list_set_length.
  split; [exact Hlen|].
  intros i Hi. unfold entry. cbn [SlabFab.m_pTable SlabFab.with_pTable].
  rewrite list_set_nth by lia.
  destruct (Nat.eqb_spec (Z.to_nat i) (Z.to_nat t)).
  - assert (Hsum : 0 <= entry s t + a) by lia.
    pose proof (Z.rem_bound_pos (entry s t + a) N Hsum HN) as Hr.
    unfold entry in Hr. lia.
  - apply (Hent i Hi).
Qed.

(** A call of [shift(int)] within [int] runs. *)
Lemma shift_checked_runs (blockDim n : Z) (s : SlabFab.t) :
  IntVect.axis_ok (SlabFab.m_nrmDir s) = true ->
  0 < slab_count s <= blockDim ->
  table_is_permutation s ->
  is_ok (SlabFab.numSlab_checked s) = true ->
  2 * (Z.abs n + slab_count s) <= INT_MAX ->
  in_int (slab_lo s + n) = true ->
  in_int (slab_hi s + n) = true ->
  exists s' : SlabFab.t, SlabFab.shift_checked blockDim n s = Ok s'.
Proof.
  intros Hax HN Hperm Hnum Hb Hlo Hhi.
  unfold SlabFab.shift_checked.
  destruct (Z.eqb_spec n 0) as [E|Hn]; [exists s; reflexivity|].
  rewrite (numSlab_checked_count s Hax Hnum). cbn [bind].
  destruct (Z.leb_spec (slab_count s) blockDim); [|lia]. cbn [CH_assert bind].
  pose proof (permutation_length s Hperm) as Hlen.
  pose proof (permutation_entries s Hperm Hlen) as Hent.
  destruct (normalize_shift_checked_runs n (slab_count s) ltac:(lia) Hn Hb)
    as (a & Ha & Ha0 & HaN & _).
  rewrite lanes_cons by lia. cbn [foldM].
  assert (H0 : exists s1 : SlabFab.t,
             SlabFab.shift_lane_checked (slab_count s) n 0 s = Ok s1
             /\ slab_count s <= Z.of_nat (length (SlabFab.m_pTable s1))
             /\ (forall i : Z, 0 <= i < slab_count s -> 0 <= entry s1 i < slab_count s)).
  { unfold SlabFab.shift_lane_checked.
    destruct (Z.ltb_spec 0 (slab_count s)); [|lia]. cbn [Z.eqb].
    rewrite (shift_dir_checked_runs n _ _ Hax Hlo Hhi). cbn [bind].
    rewrite Ha. cbn [bind]. unfold array_get, array_set.
    cbn [SlabFab.m_pTable SlabFab.with_box].
    destruct (Z.ltb_spec 0 (Z.of_nat (length (SlabFab.m_pTable s)))); [|lia].
    change ((0 <=? 0) && true) with true. cbn [bind]. fold (entry s 0).
    pose proof (Hent 0 ltac:(lia)) as Hp.
    change INT_MAX with 2147483647 in HaN.
    rewrite int_result_in by (apply in_int_spec; lia). cbn [bind].
    unfold int_rem_checked.
    rewrite int_div_checked_spec by (apply in_int_spec; lia).
    destruct (Z.eqb_spec (slab_count s) 0) as [E|_]; [lia|].
    destruct (Z.eqb_spec (slab_count s) (-1)) as [E|_]; [lia|].
    rewrite andb_false_r. cbn [bind].
    unfold int_rem. destruct (Z.eqb_spec (slab_count s) 0) as [E|_]; [lia|].
    cbn [bind]. eexists. split; [reflexivity|].
    cbn [SlabFab.m_pTable SlabFab.with_pTable]. rewrite list_set_length.
    split; [exact Hlen|].
    intros i Hi. unfold entry. cbn [SlabFab.m_pTable SlabFab.with_pTable].
    rewrite list_set_nth by lia.
    destruct (Nat.eqb_spec (Z.to_nat i) (Z.to_nat 0)).
    - assert (Hsum : 0 <= entry s 0 + a) by lia.
      pose proof (Z.rem_bound_pos (entry s 0 + a) (slab_count s) Hsum
                    ltac:(lia)) as Hr.
      unfold entry in Hr. lia.
    - apply (Hent i Hi). }
  destruct H0 as (s1 & E1 & Hlen1 & Hent1). rewrite E1. cbn [bind].
  destruct (foldM_runs (SlabFab.shift_lane_checked (slab_count s) n)
              (fun s' => slab_count s <= Z.of_nat (length (SlabFab.m_pTable s'))
                         /\ forall i : Z, 0 <= i < slab_count s ->
                              0 <= entry s' i < slab_count s)
              (Zseq (0 + 1) (Z.to_nat (blockDim - 1)))) with (s := s1)
    as (s' & Hs' & _).
  - intros t s0 Ht [Hl0 He0]. apply Zseq_In in Ht.
    apply (shift_lane_checked_runs (slab_count s) n a t s0); try assumption; lia.
  - split; assumption.
  - exists s'. exact Hs'.
Qed.

(** From [2^30] on a call of [shift(int)] stops on a signed overflow. *)
Lemma shift_checked_overflows (blockDim n : Z) (s : SlabFab.t) :
  IntVect.axis_ok (SlabFab.m_nrmDir s) = true ->
  0 < slab_count s <= blockDim ->
  is_ok (SlabFab.numSlab_checked s) = true ->
  2 ^ 30 <= n ->
  SlabFab.shift_checked blockDim n s = Fault IntOverflow.
Proof.
  intros Hax HN Hnum Hn. unfold SlabFab.shift_checked.
  destruct (Z.eqb_spec n 0) as [E|_].
  { change (2 ^ 30) with 1073741824 in Hn. lia. }
  rewrite (numSlab_checked_count s Hax Hnum). cbn [bind].
  destruct (Z.leb_spec (slab_count s) blockDim); [|lia]. cbn [CH_assert bind].
  rewrite lanes_cons by lia. cbn [foldM].
  unfold SlabFab.shift_lane_checked at 1.
  destruct (Z.ltb_spec 0 (slab_count s)); [|lia]. cbn [Z.eqb].
  unfold Box.shift_dir_checked, IntVect.get, IntVect.set. rewrite Hax. cbn [bind].
  unfold int_result at 1.
  destruct (in_int _); cbn [bind]; [|reflexivity].
  unfold int_result at 1.
  destruct (in_int _); cbn [bind]; [|reflexivity].
  rewrite (normalize_shift_checked_overflows n (slab_count s)) by (lia || exact Hn).
  reflexivity.
Qed.

Lemma nth_upd_axis (v : IntVect.t) (d x : Z) :
  IntVect.axis_ok d = true -> IntVect.nth (IntVect.upd v d x) d = x.
Proof.
  intros H. apply axis_ok_cases in H. destruct H as [->|[->| ->]]; reflexivity.
Qed.

(** What a call of [shift(int)] that is no early return leaves, as far as
    the next call needs it. *)
Lemma shift_checked_moves (blockDim n : Z) (s s' : SlabFab.t) :
  IntVect.axis_ok (SlabFab.m_nrmDir s) = true ->
  0 < slab_count s <= blockDim ->
  table_is_permutation s ->
  n <> 0 ->
  SlabFab.shift_checked blockDim n s = Ok s' ->
  SlabFab.m_nrmDir s' = SlabFab.m_nrmDir s
  /\ slab_lo s' = slab_lo s + n
  /\ slab_hi s' = slab_hi s + n
  /\ SlabFab.numSlab_checked s' = SlabFab.numSlab_checked s.
Proof.
  intros Hax HN Hperm Hn Hs. apply shift_checked_ok in Hs.
  pose proof (permutation_length s Hperm) as Hlen.
  destruct (shift_spec blockDim n s Hax Hn ltac:(lia) ltac:(lia) Hlen)
    as (tbl' & a & Hs1 & _).
  rewrite Hs1 in Hs. injection Hs as <-.
  split; [reflexivity|].
  unfold slab_lo, slab_hi, SlabFab.numSlab_checked.
  cbn [SlabFab.m_nrmDir SlabFab.with_pTable SlabFab.with_box].
  change (SlabFab.m_box (SlabFab.with_pTable (SlabFab.with_box s (moved_box s n)) tbl'))
    with (moved_box s n).
  rewrite (moved_box_dimensions_checked s n Hax).
  unfold moved_box. cbn [Box.m_lo Box.m_hi].
  rewrite !nth_upd_axis by exact Hax. auto.
Qed.

Lemma shifts_checked_run (blockDim : Z) (ns : list Z) :
  forall s : SlabFab.t,
    IntVect.axis_ok (SlabFab.m_nrmDir s) = true ->
    0 < slab_count s <= blockDim ->
    table_is_permutation s ->
    is_ok (SlabFab.numSlab_checked s) = true ->
    shifts_in_int (slab_count s) (slab_lo s) (slab_hi s) ns = true ->
    exists s' : SlabFab.t,
      shifts_checked blockDim ns s = Ok s'
      /\ slab_count s' = slab_count s
      /\ table_is_permutation s'.
Proof.
  induction ns as [|n ns IH]; intros s Hax HN Hperm Hnum Hfit.
  - exists s. cbn. auto.
  - cbn [shifts_in_int] in Hfit. apply andb_true_iff in Hfit.
    destruct Hfit as [Hn Hrest].
    unfold shifts_checked in *. cbn [foldM].
    destruct (Z.eqb_spec n 0) as [->|Hn0].
    + unfold SlabFab.shift_checked at 1. cbn [Z.eqb bind].
      rewrite !Z.add_0_r in Hrest. apply IH; assumption.
    + cbn [orb] in Hn. apply andb_true_iff in Hn. destruct Hn as [Hn Hhi].
      apply andb_true_iff in Hn. destruct Hn as [Hb Hlo]. apply Z.leb_le in Hb.
      destruct (shift_checked_runs blockDim n s Hax HN Hperm Hnum Hb Hlo Hhi)
        as (s1 & Hs1).
      rewrite Hs1. cbn [bind].
      destruct (shift_checked_moves blockDim n s s1 Hax HN Hperm Hn0 Hs1)
        as (Hnrm & Hl1 & Hh1 & Hnum1).
      destruct (shift_keeps_permutation blockDim n s Hax ltac:(lia) ltac:(lia) Hperm)
        as (s1' & Hs1' & _ & Hc1 & Hp1).
      rewrite (shift_checked_ok _ _ _ _ Hs1) in Hs1'. injection Hs1' as <-.
      destruct (IH s1) as (s' & Hs' & Hc' & Hp').
      * rewrite Hnrm. exact Hax.
      * rewrite Hc1. exact HN.
      * exact Hp1.
      * rewrite Hnum1. exact Hnum.
      * rewrite Hc1, Hl1, Hh1. exact Hrest.
      * exists s'. split; [exact Hs'|]. split; [lia | exact Hp'].
Qed.

(** C4, as the code has it.  After [define] the table holds the identity,
    so its first [numSlab] entries are a permutation of
    [{0, ..., numSlab-1}].  The arithmetic of [shift(n)] is arithmetic of
    [int]: a call by a group of at least [numSlab] lanes that returns
    keeps [numSlab] and leaves those entries a permutation of
    [{0, ..., numSlab-1}], and so does every sequence of calls that
    return; the calls return when the moved bounds of the window and
    [2 * (|n| + numSlab)] are values of [int], and in each such call the
    operand of [%] is a value of [int] that is not negative, so the
    remainder is the mathematical residue; from [n = 2^30] on the
    normalization of [n] overflows. *)
Theorem pTable_stays_permutation :
  (forall (T : Type) (MxSz blockDim a_alias : Z) (a_box : Box.t)
          (a_ncomp a_nrmDir a_locNDBeg a_locNDEnd a_compBegSrc : Z)
          (src : CudaFab.t) (gmem : mem T) (a_numThrLS : Z)
          (g g' : SlabFab.group T),
     0 < blockDim ->
     SlabFab.define MxSz blockDim a_alias a_box a_ncomp a_nrmDir a_locNDBeg
       a_locNDEnd a_compBegSrc src gmem a_numThrLS g = Ok g' ->
     let s := SlabFab.fab g' in
     SlabFab.numSlab s = Ok (slab_count s)
     /\ 1 < slab_count s <= MxSz
     /\ IntVect.axis_ok (SlabFab.m_nrmDir s) = true
     /\ (forall i : Z, 0 <= i < MxSz -> array_get (SlabFab.m_pTable s) i = Ok i)
     /\ table_is_permutation s)
  /\ (forall (blockDim : Z) (ns : list Z) (s s' : SlabFab.t),
        IntVect.axis_ok (SlabFab.m_nrmDir s) = true ->
        0 < slab_count s <= blockDim ->
        table_is_permutation s ->
        shifts_checked blockDim ns s = Ok s' ->
        shifts blockDim ns s = Ok s'
        /\ slab_count s' = slab_count s
        /\ table_is_permutation s')
  /\ (forall (blockDim : Z) (ns : list Z) (s : SlabFab.t),
        IntVect.axis_ok (SlabFab.m_nrmDir s) = true ->
        0 < slab_count s <= blockDim ->
        table_is_permutation s ->
        is_ok (SlabFab.numSlab_checked s) = true ->
        shifts_in_int (slab_count s) (slab_lo s) (slab_hi s) ns = true ->
        exists s' : SlabFab.t,
          shifts_checked blockDim ns s = Ok s'
          /\ slab_count s' = slab_count s
          /\ table_is_permutation s')
  /\ (forall (T : Type) (MxSz blockDim a_alias : Z) (a_box : Box.t)
             (a_ncomp a_nrmDir a_locNDBeg a_locNDEnd a_compBegSrc : Z)
             (src : CudaFab.t) (gmem : mem T) (a_numThrLS : Z)
             (g g' : SlabFab.group T) (ns : list Z),
        0 < blockDim ->
        SlabFab.define MxSz blockDim a_alias a_box a_ncomp a_nrmDir a_locNDBeg
          a_locNDEnd a_compBegSrc src gmem a_numThrLS g = Ok g' ->
        let s := SlabFab.fab g' in
        slab_count s <= blockDim ->
        is_ok (SlabFab.numSlab_checked s) = true ->
        shifts_in_int (slab_count s) (slab_lo s) (slab_hi s) ns = true ->
        exists s' : SlabFab.t,
          shifts_checked blockDim ns s = Ok s'
          /\ slab_count s' = slab_count s
          /\ table_is_permutation s')
  /\ (forall (s : SlabFab.t) (n t : Z),
        0 < slab_count s ->
        table_is_permutation s ->
        n <> 0 ->
        2 * (Z.abs n + slab_count s) <= INT_MAX ->
        0 <= t < slab_count s ->
        exists a p : Z,
          SlabFab.normalize_shift_checked n (slab_count s) = Ok a
          /\ array_get (SlabFab.m_pTable s) t = Ok p
          /\ int_result (p + a) = Ok (p + a)
          /\ 0 <= p + a
          /\ int_rem_checked (p + a) (slab_count s)
             = Ok ((p + n) mod slab_count s))
  /\ (forall (blockDim n : Z) (s : SlabFab.t),
        IntVect.axis_ok (SlabFab.m_nrmDir s) = true ->
        0 < slab_count s <= blockDim ->
        is_ok (SlabFab.numSlab_checked s) = true ->
        2 ^ 30 <= n ->
        SlabFab.shift_checked blockDim n s = Fault IntOverflow).
Proof.
  assert (Hdefine :
    forall (T : Type) (MxSz blockDim a_alias : Z) (a_box : Box.t)
           (a_ncomp a_nrmDir a_locNDBeg a_locNDEnd a_compBegSrc : Z)
           (src : CudaFab.t) (gmem : mem T) (a_numThrLS : Z)
           (g g' : SlabFab.group T),
      0 < blockDim ->
      SlabFab.define MxSz blockDim a_alias a_box a_ncomp a_nrmDir a_locNDBeg
        a_locNDEnd a_compBegSrc src gmem a_numThrLS g = Ok g' ->
      IntVect.axis_ok (SlabFab.m_nrmDir (SlabFab.fab g')) = true
      /\ 1 < slab_count (SlabFab.fab g') <= MxSz
      /\ SlabFab.m_pTable (SlabFab.fab g') = Zseq 0 (Z.to_nat MxSz)).
  { intros T MxSz blockDim a_alias a_box a_ncomp a_nrmDir a_locNDBeg a_locNDEnd
      a_compBegSrc src gmem a_numThrLS g g' Hb Hdef.
    apply define_fab in Hdef; [|exact Hb].
    set (s := SlabFab.fab g') in *.
    pose proof Hdef as Hspec. apply define_setup_spec in Hspec.
    destruct Hspec as (Hbox & _ & Hnrm & _ & Htbl & _).
    unfold SlabFab.define_setup in Hdef.
    rewrite setStride_spec in Hdef. proj_simpl.
    destruct (IntVect.le (Box.m_lo a_box) (Box.m_hi a_box)); [|discriminate Hdef].
    cbn [bind] in Hdef. unfold IntVect.set, IntVect.get in Hdef.
    destruct (IntVect.axis_ok a_nrmDir) eqn:Hax; [|discriminate Hdef].
    cbn [bind] in Hdef. inv_bind Hdef. apply CH_assert_ok in E.
    apply andb_true_iff in E. destruct E as [Hn1 Hn2].
    apply Z.ltb_lt in Hn1. apply Z.leb_le in Hn2.
    assert (HN : slab_count s = IntVect.nth (Box.dimensions a_box) a_nrmDir).
    { unfold slab_count. rewrite Hbox, Hnrm. reflexivity. }
    split; [rewrite Hnrm; exact Hax|]. split; [lia | exact Htbl]. }
  assert (Hkeep :
    forall (blockDim : Z) (ns : list Z) (s s' : SlabFab.t),
      IntVect.axis_ok (SlabFab.m_nrmDir s) = true ->
      0 < slab_count s <= blockDim ->
      table_is_permutation s ->
      shifts_checked blockDim ns s = Ok s' ->
      shifts blockDim ns s = Ok s'
      /\ slab_count s' = slab_count s
      /\ table_is_permutation s').
  { intros blockDim ns. induction ns as [|n ns IH]; intros s s' Hax HN Hperm Hs.
    - cbn in Hs. injection Hs as <-. cbn. auto.
    - unfold shifts_checked, shifts in *. cbn [foldM] in *.
      destruct (SlabFab.shift_checked blockDim n s) as [s1|f] eqn:E1;
        cbn [bind] in Hs; [|discriminate Hs].
      apply shift_checked_ok in E1.
      destruct (shift_keeps_permutation blockDim n s Hax ltac:(lia) ltac:(lia) Hperm)
        as (s1' & Hs1' & Hnrm & Hc1 & Hp1).
      rewrite E1 in Hs1'. injection Hs1' as <-.
      rewrite E1. cbn [bind].
      destruct (IH s1 s') as (H1 & H2 & H3).
      + rewrite Hnrm. exact Hax.
      + rewrite Hc1. exact HN.
      + exact Hp1.
      + exact Hs.
      + split; [exact H1|]. split; [lia | exact H3]. }
  assert (Hident :
    forall (MxSz : Z) (s : SlabFab.t),
      1 < slab_count s <= MxSz ->
      SlabFab.m_pTable s = Zseq 0 (Z.to_nat MxSz) ->
      table_is_permutation s).
  { intros MxSz s HN Htbl. unfold table_is_permutation.
    rewrite Htbl, firstn_Zseq by lia. apply Permutation_refl. }
  split; [|split; [exact Hkeep|split; [|split; [|split]]]].
  - intros T MxSz blockDim a_alias a_box a_ncomp a_nrmDir a_locNDBeg a_locNDEnd
      a_compBegSrc src gmem a_numThrLS g g' Hb Hdef s.
    destruct (Hdefine _ _ _ _ _ _ _ _ _ _ _ _ _ _ _ Hb Hdef) as (Hax & HN & Htbl).
    fold s in Hax, HN, Htbl.
    split; [apply numSlab_ok; exact Hax|]. split; [exact HN|].
    split; [exact Hax|]. split.
    + intros i Hi. unfold array_get. rewrite Htbl, Zseq_length.
      destruct (Z.leb_spec 0 i); [|lia].
      destruct (Z.ltb_spec i (Z.of_nat (Z.to_nat MxSz))); [|lia].
      cbn [andb]. rewrite Zseq_nth by lia. f_equal. lia.
    + apply (Hident MxSz); assumption.
  - intros blockDim ns s. apply shifts_checked_run.
  - intros T MxSz blockDim a_alias a_box a_ncomp a_nrmDir a_locNDBeg a_locNDEnd
      a_compBegSrc src gmem a_numThrLS g g' ns Hb Hdef s Hblock Hnum Hfit.
    destruct (Hdefine _ _ _ _ _ _ _ _ _ _ _ _ _ _ _ Hb Hdef) as (Hax & HN & Htbl).
    fold s in Hax, HN, Htbl.
    apply shifts_checked_run; try assumption; [lia|].
    apply (Hident MxSz); assumption.
  - intros s n t HN Hperm Hn Hb Ht.
    pose proof (permutation_length s Hperm) as Hlen.
    destruct (normalize_shift_checked_runs n (slab_count s) HN Hn Hb)
      as (a & Ha & Ha0 & HaN & Hamod).
    pose proof (permutation_entries s Hperm Hlen t Ht) as Hent.
    change INT_MAX with 2147483647 in HaN.
    exists a, (entry s t). split; [exact Ha|]. split.
    + unfold array_get, entry.
      destruct (Z.leb_spec 0 t); [|lia].
      destruct (Z.ltb_spec t (Z.of_nat (length (SlabFab.m_pTable s)))); [|lia].
      reflexivity.
    + split; [apply int_result_in, in_int_spec; lia|]. split; [lia|].
      unfold int_rem_checked.
      rewrite int_div_checked_spec by (apply in_int_spec; lia).
      destruct (Z.eqb_spec (slab_count s) 0); [lia|].
      destruct (Z.eqb_spec (slab_count s) (-1)); [lia|].
      rewrite andb_false_r. cbn [bind]. unfold int_rem.
      destruct (Z.eqb_spec (slab_count s) 0); [lia|].
      f_equal. apply rem_rotate; lia.
  - intros blockDim n s. apply shift_checked_overflows.
Qed.

(** ** Moving a coordinate along one axis *)







(** ** Cells of the cache and of the source *)





(** ** Loading: what a sequence of copies leaves in the cache *)

Section Loading.

Context {T : Type}.
Variables (MxSz blockDim : Z) (s : SlabFab.t) (src : CudaFab.t) (gmem : mem T).
Hypothesis Hwf : wf MxSz blockDim s.









End Loading.

Section Reloading.

Context {T : Type}.
Variables (MxSz blockDim : Z) (s : SlabFab.t) (src : CudaFab.t) (gmem : mem T).
Hypothesis Hwf : wf MxSz blockDim s.



End Reloading.

(** ** A shift keeps the cache well formed and rotates its table *)




(** ** Cells: one per point and component, and stable under rotation *)








(** ** Shift and reload *)

Section Shifting.

Context {T : Type}.
Variables (MxSz blockDim r : Z) (src : CudaFab.t) (gmem : mem T).







End Shifting.








(** ** The loading strategy *)

Lemma Box_size_pos (b : Box.t) :
  IntVect.le (Box.m_lo b) (Box.m_hi b) = true -> 0 < Box.size b.
Proof.
  intros H. apply IntVect_le_spec in H. unfold Box.size.
  destruct b as [[l0 l1 l2] [h0 h1 h2]]. proj_simpl.
  assert (0 < (h0 - l0 + 1) * (h1 - l1 + 1)) by nia. nia.
Qed.



(** ** [define] sets the cursors and preloads the window *)


Section Defining.

Context {T : Type}.
Variables (MxSz blockDim a_alias : Z) (a_box : Box.t).
Variables (a_ncomp a_nrmDir a_locNDBeg a_locNDEnd a_compBegSrc : Z).
Variables (src : CudaFab.t) (gmem : mem T) (a_numThrLS : Z).

Hypothesis Hbox : IntVect.le (Box.m_lo a_box) (Box.m_hi a_box) = true.
Hypothesis Haxis : IntVect.axis_ok a_nrmDir = true.
Hypothesis Hdepth : 1 < IntVect.nth (Box.dimensions a_box) a_nrmDir <= MxSz.
Hypothesis Hlanes :
  IntVect.product (IntVect.upd (Box.dimensions a_box) a_nrmDir 1) <= a_numThrLS.
Hypothesis Hwidth : a_numThrLS <= blockDim.
Hypothesis Hncomp : 0 <= a_ncomp.
Hypothesis Hrange :
  forall x, a_locNDBeg <= x <= a_locNDEnd ->
    IntVect.nth (Box.m_lo a_box) a_nrmDir <= x <= IntVect.nth (Box.m_hi a_box) a_nrmDir.
Hypothesis Hsource :
  forall p, Box.contains a_box p = true ->
    a_locNDBeg <= IntVect.nth p a_nrmDir <= a_locNDEnd ->
    Box.contains (CudaFab.m_box src) p = true.



End Defining.




(** ** Concrete caches: what the code does on them *)

Lemma ok_or_defined {A : Type} (d : A) (c : Res A) :
  is_ok c = true -> c = Ok (ok_or d c).
Proof. destruct c; [reflexivity | discriminate]. Qed.

Lemma scenarioB_defined :
  SlabFab.define 6 16 0 scenarioA_box 1 2 0 3 0 demo_src demo_gmem 16 demo_blank
  = Ok scenarioB.
Proof. apply ok_or_defined. vm_compute. reflexivity. Qed.

Lemma scenarioB_partial_defined :
  SlabFab.define 6 16 0 scenarioA_box 1 2 1 3 0 demo_src demo_gmem 16 demo_blank
  = Ok scenarioB_partial.
Proof. apply ok_or_defined. vm_compute. reflexivity. Qed.

Lemma axis0_cache_defined :
  SlabFab.define 6 4 0 axis0_box 1 0 0 1 0 demo_src demo_gmem 4 demo_blank
  = Ok axis0_cache.
Proof. apply ok_or_defined. vm_compute. reflexivity. Qed.






(** ** [define] leaves a well-formed cache *)











(** C4, counterexample.  In scenario B (depth 4, 16 lanes, the table the
    identity) [shift(2^30)] has to add [2^30] to [2^30]: the sum is not an
    [int], so the call has no defined outcome and leaves no table. *)
Lemma pTable_stays_permutation_counterexample :
  SlabFab.define 6 16 0 scenarioA_box 1 2 0 3 0 demo_src demo_gmem 16 demo_blank
  = Ok scenarioB
  /\ slab_count (SlabFab.fab scenarioB) = 4
  /\ table_is_permutation (SlabFab.fab scenarioB)
  /\ in_int (2 ^ 30) = true
  /\ SlabFab.normalize_shift_checked (2 ^ 30) 4 = Fault IntOverflow
  /\ SlabFab.normalize_shift (2 ^ 30) 4 = Ok (2 ^ 31)
  /\ shifts_checked 16 [2 ^ 30] (SlabFab.fab scenarioB) = Fault IntOverflow
  /\ ~ (exists s' : SlabFab.t,
          shifts_checked 16 [2 ^ 30] (SlabFab.fab scenarioB) = Ok s'
          /\ table_is_permutation s').
Proof.
  assert (H : shifts_checked 16 [2 ^ 30] (SlabFab.fab scenarioB) = Fault IntOverflow)
    by (vm_compute; reflexivity).
  split; [exact scenarioB_defined|].
  split; [vm_compute; reflexivity|].
  split; [unfold table_is_permutation; vm_compute; apply Permutation_refl|].
  split; [reflexivity|]. split; [vm_compute; reflexivity|].
  split; [vm_compute; reflexivity|]. split; [exact H|].
  intros (s' & Hs & _). rewrite H in Hs. discriminate Hs.
Qed.

Lemma pTable_stays_permutation_witness :
  exists s' : SlabFab.t,
    shifts_checked 16 [1; -2; 7] (SlabFab.fab scenarioB) = Ok s'
    /\ slab_count s' = slab_count (SlabFab.fab scenarioB)
    /\ table_is_permutation s'.
Proof.
  destruct pTable_stays_permutation as (_ & _ & Hshifts & _).
  apply (Hshifts 16 [1; -2; 7] (SlabFab.fab scenarioB)).
  - vm_compute. reflexivity.
  - vm_compute. split; [reflexivity | discriminate].
  - unfold table_is_permutation. vm_compute. apply Permutation_refl.
  - vm_compute. reflexivity.
  - vm_compute. reflexivity.
Defined.



(** * Further properties of the code *)

(** ** IntVect: comparisons, bounds, norm and division *)

Lemma IntVect_eqb_spec (x y : IntVect.t) : IntVect.eqb x y = true <-> x = y.
Proof.
  destruct x as [x0 x1 x2], y as [y0 y1 y2]. unfold IntVect.eqb. cbn.
  rewrite !andb_true_iff, !Z.eqb_eq. split.
  - intros [[-> ->] ->]. reflexivity.
  - intros H. injection H as -> -> ->. auto.
Qed.

Lemma IntVect_lt_spec (x y : IntVect.t) :
  IntVect.lt x y = true
  <-> IntVect.iv0 x < IntVect.iv0 y /\ IntVect.iv1 x < IntVect.iv1 y
      /\ IntVect.iv2 x < IntVect.iv2 y.
Proof.
  unfold IntVect.lt. rewrite !andb_true_iff, !Z.ltb_lt. tauto.
Qed.

(** X1.  [operator==] decides equality of the components and [operator!=] is
    its negation.  [operator<=] is a partial order.  [operator<] asks for
    a strict inequality in every component: it implies [<=] and [!=], but
    [x <= y] with [x != y] does not give [x < y], and two vectors can be
    unrelated by [<=] in both directions. *)
Theorem IntVect_comparisons :
  (forall x y : IntVect.t, IntVect.eqb x y = true <-> x = y)
  /\ (forall x y : IntVect.t, IntVect.neb x y = negb (IntVect.eqb x y))
  /\ (forall x : IntVect.t, IntVect.le x x = true)
  /\ (forall x y : IntVect.t,
        IntVect.le x y = true -> IntVect.le y x = true -> x = y)
  /\ (forall x y z : IntVect.t,
        IntVect.le x y = true -> IntVect.le y z = true -> IntVect.le x z = true)
  /\ (forall x y : IntVect.t,
        IntVect.lt x y = true -> IntVect.le x y = true /\ IntVect.neb x y = true)
  /\ (forall x y z : IntVect.t,
        IntVect.lt x y = true -> IntVect.le y z = true -> IntVect.lt x z = true)
  /\ (forall x y : IntVect.t,
        IntVect.le x y = true -> IntVect.lt y x = false)
  /\ (exists x y : IntVect.t,
        IntVect.le x y = true /\ IntVect.neb x y = true /\ IntVect.lt x y = false)
  /\ (exists x y : IntVect.t,
        IntVect.le x y = false /\ IntVect.le y x = false
        /\ IntVect.lt x y = false /\ IntVect.lt y x = false
        /\ IntVect.eqb x y = false).
Proof.
  split; [exact IntVect_eqb_spec|].
  split.
  { intros x y. unfold IntVect.neb, IntVect.eqb.
    rewrite !negb_andb. reflexivity. }
  split.
  { intros x. apply IntVect_le_spec. lia. }
  split.
  { intros [x0 x1 x2] [y0 y1 y2] H1 H2.
    apply IntVect_le_spec in H1, H2. cbn in *. f_equal; lia. }
  split.
  { intros x y z H1 H2. apply IntVect_le_spec in H1, H2. apply IntVect_le_spec. lia. }
  split.
  { intros x y H. apply IntVect_lt_spec in H. split.
    - apply IntVect_le_spec. lia.
    - unfold IntVect.neb. destruct (Z.eqb_spec (IntVect.iv0 x) (IntVect.iv0 y)); [lia|].
      reflexivity. }
  split.
  { intros x y z H1 H2. apply IntVect_lt_spec in H1. apply IntVect_le_spec in H2.
    apply IntVect_lt_spec. lia. }
  split.
  { intros x y H. apply IntVect_le_spec in H.
    destruct (IntVect.lt y x) eqn:E; [|reflexivity].
    apply IntVect_lt_spec in E. lia. }
  split.
  { exists (IntVect.mk 0 0 0), (IntVect.mk 0 0 1). repeat split; reflexivity. }
  exists (IntVect.mk 0 1 0), (IntVect.mk 1 0 0). repeat split; reflexivity.
Qed.

(** X2.  [IntVect::max] and [IntVect::min] give the least upper and the
    greatest lower bound of two vectors in the order of [operator<=]. *)
Theorem IntVect_min_max_bounds (x y z : IntVect.t) :
  IntVect.le (IntVect.max x y) z = IntVect.le x z && IntVect.le y z
  /\ IntVect.le z (IntVect.min x y) = IntVect.le z x && IntVect.le z y
  /\ IntVect.le (IntVect.min x y) (IntVect.max x y) = true
  /\ IntVect.max x y = IntVect.max y x
  /\ IntVect.min x y = IntVect.min y x
  /\ IntVect.add (IntVect.min x y) (IntVect.max x y) = IntVect.add x y.
Proof.
  assert (Hb : forall a b : bool, (a = true <-> b = true) -> a = b).
  { intros [|] [|] H; try reflexivity; [symmetry|]; apply H; reflexivity. }
  destruct x as [x0 x1 x2], y as [y0 y1 y2], z as [z0 z1 z2].
  split; [|split; [|split; [|split; [|split]]]].
  - apply Hb. rewrite andb_true_iff, !IntVect_le_spec. cbn. lia.
  - apply Hb. rewrite andb_true_iff, !IntVect_le_spec. cbn. lia.
  - apply IntVect_le_spec. cbn. lia.
  - unfold IntVect.max. cbn. f_equal; lia.
  - unfold IntVect.min. cbn. f_equal; lia.
  - unfold IntVect.add, IntVect.min, IntVect.max. cbn. f_equal; lia.
Qed.


(** X4.  [operator/] on vectors divides component by component with the
    truncating division of [int].  On vectors of [int] it returns a
    quotient exactly when no component of the divisor is zero and no
    component divides [INT_MIN] by [-1]; otherwise it stops, on a division
    by zero or on the quotient that is not an [int].  A quotient it returns
    is a vector of [int]; it undoes a componentwise product that is
    representable, it is negated with a representable negation of either
    operand (the division rounds toward zero), and it leaves a remainder
    smaller than the divisor with the sign of the dividend. *)
Theorem IntVect_div_spec (x y : IntVect.t) :
  IntVect.in_int x = true ->
  let zero := IntVect.iv0 y = 0 \/ IntVect.iv1 y = 0 \/ IntVect.iv2 y = 0 in
  let over := (IntVect.iv0 x = INT_MIN /\ IntVect.iv0 y = -1)
              \/ (IntVect.iv1 x = INT_MIN /\ IntVect.iv1 y = -1)
              \/ (IntVect.iv2 x = INT_MIN /\ IntVect.iv2 y = -1) in
  ((exists q : IntVect.t, IntVect.div x y = Ok q) <-> ~ zero /\ ~ over)
  /\ (forall f : fault,
        IntVect.div x y = Fault f ->
        (f = DivideByZero /\ zero) \/ (f = IntOverflow /\ over))
  /\ (zero -> ~ over -> IntVect.div x y = Fault DivideByZero)
  /\ (over -> ~ zero -> IntVect.div x y = Fault IntOverflow)
  /\ (forall q : IntVect.t,
        IntVect.div x y = Ok q ->
        IntVect.in_int q = true
        /\ (IntVect.in_int (IntVect.mul x y) = true ->
            IntVect.div (IntVect.mul x y) y = Ok x)
        /\ (IntVect.in_int (IntVect.neg x) = true ->
            IntVect.div (IntVect.neg x) y = Ok (IntVect.neg q))
        /\ (IntVect.in_int (IntVect.neg q) = true ->
            IntVect.div x (IntVect.neg y) = Ok (IntVect.neg q))
        /\ (let r := IntVect.sub x (IntVect.mul q y) in
            Z.abs (IntVect.iv0 r) < Z.abs (IntVect.iv0 y)
            /\ Z.abs (IntVect.iv1 r) < Z.abs (IntVect.iv1 y)
            /\ Z.abs (IntVect.iv2 r) < Z.abs (IntVect.iv2 y)
            /\ 0 <= IntVect.iv0 r * IntVect.iv0 x
            /\ 0 <= IntVect.iv1 r * IntVect.iv1 x
            /\ 0 <= IntVect.iv2 r * IntVect.iv2 x)).
Proof.
  intros Hx. cbv zeta. apply IntVect_in_int_spec in Hx.
  destruct x as [x0 x1 x2], y as [y0 y1 y2]. cbn in Hx.
  destruct Hx as (Hx0 & Hx1 & Hx2).
  unfold IntVect.div. cbn [IntVect.iv0 IntVect.iv1 IntVect.iv2].
  destruct (int_div_checked_cases x0 y0 Hx0)
    as [(Z0 & ->)|[(O0 & P0 & ->)|(N0 & M0 & -> & Q0)]];
  destruct (int_div_checked_cases x1 y1 Hx1)
    as [(Z1 & ->)|[(O1 & P1 & ->)|(N1 & M1 & -> & Q1)]];
  destruct (int_div_checked_cases x2 y2 Hx2)
    as [(Z2 & ->)|[(O2 & P2 & ->)|(N2 & M2 & -> & Q2)]];
  cbn [bind];
  try (split; [split; [intros (q & Hq); discriminate Hq | intros [Hz Ho]; exfalso; tauto]|];
       split; [intros f Hf; injection Hf as <-; tauto|];
       split; [intros Hz Ho; first [reflexivity | exfalso; tauto]|];
       split; [intros Ho Hz; first [reflexivity | exfalso; tauto]|];
       intros q Hq; discriminate Hq).
  split; [split; [intros _; tauto | intros _; eexists; reflexivity]|].
  split; [intros f Hf; discriminate Hf|].
  split; [intros Hz Ho; exfalso; tauto|].
  split; [intros Ho Hz; exfalso; tauto|].
  intros q Hq. injection Hq as <-.
  split; [apply IntVect_in_int_spec; cbn; auto|].
  pose proof Q0 as B0. pose proof Q1 as B1. pose proof Q2 as B2.
  apply in_int_spec in B0, B1, B2.
  assert (A0 := proj1 (in_int_spec x0) Hx0).
  assert (A1 := proj1 (in_int_spec x1) Hx1).
  assert (A2 := proj1 (in_int_spec x2) Hx2).
  split; [|split; [|split]].
  - intros Hm. apply IntVect_in_int_spec in Hm. cbn in Hm.
    destruct Hm as (m0 & m1 & m2). unfold IntVect.mul. cbn.
    rewrite !int_div_checked_spec by assumption.
    pose proof (proj1 (in_int_spec _) m0). pose proof (proj1 (in_int_spec _) m1).
    pose proof (proj1 (in_int_spec _) m2).
    destruct (Z.eqb_spec y0 0); [contradiction|].
    destruct (Z.eqb_spec y1 0); [contradiction|].
    destruct (Z.eqb_spec y2 0); [contradiction|].
    destruct (Z.eqb_spec (x0 * y0) (-2147483648)), (Z.eqb_spec y0 (-1)); cbn [andb];
      try lia.
    all: destruct (Z.eqb_spec (x1 * y1) (-2147483648)), (Z.eqb_spec y1 (-1));
      cbn [andb]; try lia.
    all: destruct (Z.eqb_spec (x2 * y2) (-2147483648)), (Z.eqb_spec y2 (-1));
      cbn [andb]; try lia.
    all: cbn [bind]; rewrite !Z.quot_mul by assumption; reflexivity.
  - intros Hm. apply IntVect_in_int_spec in Hm. cbn in Hm.
    destruct Hm as (m0 & m1 & m2). unfold IntVect.neg. cbn.
    rewrite !int_div_checked_spec by assumption.
    pose proof (proj1 (in_int_spec _) m0). pose proof (proj1 (in_int_spec _) m1).
    pose proof (proj1 (in_int_spec _) m2).
    destruct (Z.eqb_spec y0 0); [contradiction|].
    destruct (Z.eqb_spec y1 0); [contradiction|].
    destruct (Z.eqb_spec y2 0); [contradiction|].
    destruct (Z.eqb_spec (- x0) (-2147483648)); [lia|].
    destruct (Z.eqb_spec (- x1) (-2147483648)); [lia|].
    destruct (Z.eqb_spec (- x2) (-2147483648)); [lia|].
    cbn [andb bind]. rewrite !Z.quot_opp_l by assumption. reflexivity.
  - intros Hm. apply IntVect_in_int_spec in Hm. cbn in Hm.
    destruct Hm as (m0 & m1 & m2). unfold IntVect.neg. cbn.
    rewrite !int_div_checked_spec by assumption.
    pose proof (proj1 (in_int_spec _) m0). pose proof (proj1 (in_int_spec _) m1).
    pose proof (proj1 (in_int_spec _) m2).
    destruct (Z.eqb_spec (- y0) 0); [lia|].
    destruct (Z.eqb_spec (- y1) 0); [lia|].
    destruct (Z.eqb_spec (- y2) 0); [lia|].
    assert (K0 : (x0 =? -2147483648) && (- y0 =? -1) = false).
    { destruct (Z.eqb_spec x0 (-2147483648)), (Z.eqb_spec (- y0) (-1));
        try reflexivity.
      exfalso. assert (y0 = 1) by lia. subst. rewrite Z.quot_1_r in *. lia. }
    assert (K1 : (x1 =? -2147483648) && (- y1 =? -1) = false).
    { destruct (Z.eqb_spec x1 (-2147483648)), (Z.eqb_spec (- y1) (-1));
        try reflexivity.
      exfalso. assert (y1 = 1) by lia. subst. rewrite Z.quot_1_r in *. lia. }
    assert (K2 : (x2 =? -2147483648) && (- y2 =? -1) = false).
    { destruct (Z.eqb_spec x2 (-2147483648)), (Z.eqb_spec (- y2) (-1));
        try reflexivity.
      exfalso. assert (y2 = 1) by lia. subst. rewrite Z.quot_1_r in *. lia. }
    rewrite K0, K1, K2. cbn [bind]. rewrite !Z.quot_opp_r by assumption. reflexivity.
  - cbn.
    pose proof (Z.quot_rem' x0 y0) as D0. pose proof (Z.quot_rem' x1 y1) as D1.
    pose proof (Z.quot_rem' x2 y2) as D2.
    pose proof (Z.rem_bound_abs x0 y0 N0). pose proof (Z.rem_bound_abs x1 y1 N1).
    pose proof (Z.rem_bound_abs x2 y2 N2).
    pose proof (Z.rem_sign_mul x0 y0 N0). pose proof (Z.rem_sign_mul x1 y1 N1).
    pose proof (Z.rem_sign_mul x2 y2 N2).
    replace (x0 - x0 ÷ y0 * y0) with (Z.rem x0 y0) by lia.
    replace (x1 - x1 ÷ y1 * y1) with (Z.rem x1 y1) by lia.
    replace (x2 - x2 ÷ y2 * y2) with (Z.rem x2 y2) by lia.
    repeat split; assumption.
Qed.

Lemma IntVect_div_spec_witness :
  IntVect.div (IntVect.mk (-2147483648) 4 4) (IntVect.mk (-1) 2 2) = Fault IntOverflow
  /\ IntVect.div (IntVect.mk 7 (-7) 4) (IntVect.mk 2 2 0) = Fault DivideByZero.
Proof.
  split.
  - apply (IntVect_div_spec (IntVect.mk (-2147483648) 4 4) (IntVect.mk (-1) 2 2)
             eq_refl).
    + left. split; reflexivity.
    + cbn. lia.
  - apply (IntVect_div_spec (IntVect.mk 7 (-7) 4) (IntVect.mk 2 2 0) eq_refl).
    + cbn. lia.
    + unfold INT_MIN. cbn. lia.
Defined.

(** ** Box: emptiness, intersection, inclusion *)

Lemma bool_eq_iff (a b : bool) : (a = true <-> b = true) -> a = b.
Proof. destruct a, b; intros H; try reflexivity; [symmetry|]; apply H; reflexivity. Qed.

Lemma Box_isEmpty_le (b : Box.t) :
  Box.isEmpty b = negb (IntVect.le (Box.m_lo b) (Box.m_hi b)).
Proof.
  unfold Box.isEmpty, IntVect.le.
  rewrite !negb_andb, !Z.leb_antisym, !negb_involutive. reflexivity.
Qed.

Lemma Box_nonempty_le (b : Box.t) :
  Box.isEmpty b = false <-> IntVect.le (Box.m_lo b) (Box.m_hi b) = true.
Proof. rewrite Box_isEmpty_le. destruct (IntVect.le _ _); cbn; intuition congruence. Qed.

Lemma Box_isEmpty_no_point (b : Box.t) :
  Box.isEmpty b = true <-> forall p : IntVect.t, Box.contains b p = false.
Proof.
  split.
  - intros H p. destruct (Box.contains b p) eqn:E; [|reflexivity].
    apply Box_contains_spec in E.
    rewrite Box_isEmpty_le in H. apply negb_true_iff in H.
    assert (Hle : IntVect.le (Box.m_lo b) (Box.m_hi b) = true)
      by (apply IntVect_le_spec; lia).
    congruence.
  - intros H. destruct (Box.isEmpty b) eqn:E; [reflexivity|].
    apply Box_nonempty_le in E.
    assert (Hc : Box.contains b (Box.m_lo b) = true).
    { apply Box_contains_spec. apply IntVect_le_spec in E. lia. }
    rewrite H in Hc. discriminate Hc.
Qed.

Lemma Box_nonempty_corners (b : Box.t) :
  Box.isEmpty b = false ->
  Box.contains b (Box.m_lo b) = true /\ Box.contains b (Box.m_hi b) = true.
Proof.
  intros H. apply Box_nonempty_le in H. apply IntVect_le_spec in H.
  split; apply Box_contains_spec; lia.
Qed.

Lemma size_checked_ok (b : Box.t) (n : Z) :
  Box.size_checked b = Ok n ->
  n = Box.size b /\ Box.dimensions_checked b = Ok (Box.dimensions b).
Proof.
  unfold Box.size_checked, Box.dimensions_checked, int_result.
  rewrite !extent_checked_spec. intros H.
  repeat match type of H with
         | context [if ?c then _ else _] => destruct c; cbn [bind] in H
         end; try discriminate H.
  injection H as <-. split; reflexivity.
Qed.

Lemma size_checked_nonempty (b : Box.t) :
  Box.isEmpty b = false ->
  Box.size_checked b
  = if Box.size b <=? INT_MAX then Ok (Box.size b) else Fault IntOverflow.
Proof.
  intros Hne. apply Box_nonempty_le, IntVect_le_spec in Hne.
  destruct b as [[l0 l1 l2] [h0 h1 h2]]. cbn in Hne.
  unfold Box.size_checked, Box.size, int_result. rewrite !extent_checked_spec.
  cbn [IntVect.iv0 IntVect.iv1 IntVect.iv2 Box.m_lo Box.m_hi].
  change INT_MAX with 2147483647.
  set (d0 := h0 - l0 + 1). set (d1 := h1 - l1 + 1). set (d2 := h2 - l2 + 1).
  assert (H0 : 1 <= d0) by (unfold d0; lia).
  assert (H1 : 1 <= d1) by (unfold d1; lia).
  assert (H2 : 1 <= d2) by (unfold d2; lia).
  replace (h0 - l0) with (d0 - 1) by (unfold d0; lia).
  replace (h1 - l1) with (d1 - 1) by (unfold d1; lia).
  replace (h2 - l2) with (d2 - 1) by (unfold d2; lia).
  clearbody d0 d1 d2.
  assert (P01 : 1 <= d0 * d1) by nia.
  assert (Q0 : d0 <= d0 * d1 * d2) by nia.
  assert (Q1 : d1 <= d0 * d1 * d2) by nia.
  assert (Q2 : d2 <= d0 * d1 * d2) by nia.
  assert (Q3 : d0 * d1 <= d0 * d1 * d2) by nia.
  destruct (Z.leb_spec (d0 * d1 * d2) 2147483647) as [Hs|Hs].
  - repeat (rewrite (proj2 (in_int_spec _)) by lia; cbn [andb bind]). reflexivity.
  - repeat match goal with
           | |- context [in_int ?x] =>
               let E := fresh "E" in
               destruct (in_int x) eqn:E; cbn [andb bind];
               [apply in_int_spec in E|]
           end; try reflexivity.
    exfalso. lia.
Qed.

(** X5.  [Box::isEmpty] says exactly that no point is in the box, and a box
    that is not empty contains its two corners.  [Box::size] multiplies
    the three extents in [int]: where it returns, it returns the product
    of [dimensions], and for a box that is not empty that is a positive
    number; but it returns only when the product is an [int], so on a box
    of 2048 x 2048 x 1024 cells, which is not empty, it overflows.  An
    empty box can have a positive [size].  [Box::define] (as the
    constructor from two corners) accepts the corners exactly when the box
    they span is not empty. *)
Theorem Box_isEmpty_spec :
  (forall b : Box.t,
     Box.isEmpty b = true <-> forall p : IntVect.t, Box.contains b p = false)
  /\ (forall b : Box.t,
        Box.isEmpty b = false ->
        Box.contains b (Box.m_lo b) = true
        /\ Box.contains b (Box.m_hi b) = true
        /\ 0 < IntVect.product (Box.dimensions b)
        /\ Box.size_checked b
           = if IntVect.product (Box.dimensions b) <=? INT_MAX
             then Ok (IntVect.product (Box.dimensions b))
             else Fault IntOverflow)
  /\ (forall (b : Box.t) (n : Z),
        Box.size_checked b = Ok n ->
        n = IntVect.product (Box.dimensions b)
        /\ n = Box.size b
        /\ in_int n = true
        /\ Box.dimensions_checked b = Ok (Box.dimensions b))
  /\ (exists b : Box.t,
        Box.in_int b = true /\ Box.isEmpty b = false
        /\ Box.dimensions_checked b = Ok (IntVect.mk 2048 2048 1024)
        /\ Box.size_checked b = Fault IntOverflow)
  /\ (exists (b : Box.t) (n : Z),
        Box.isEmpty b = true /\ Box.size_checked b = Ok n /\ 0 < n)
  /\ (forall a_lo a_hi : IntVect.t,
        Box.define a_lo a_hi
        = if Box.isEmpty (Box.mk a_lo a_hi) then Fault AssertFailed
          else Ok (Box.mk a_lo a_hi)).
Proof.
  assert (Hprod : forall b, Box.size b = IntVect.product (Box.dimensions b)).
  { intros b. unfold Box.size, IntVect.product, Box.dimensions. proj_simpl. ring. }
  split; [exact Box_isEmpty_no_point|]. split; [|split; [|split; [|split]]].
  - intros b H. destruct (Box_nonempty_corners b H) as [Hlo Hhi].
    split; [exact Hlo|]. split; [exact Hhi|]. rewrite <- Hprod.
    split; [apply Box_size_pos, Box_nonempty_le; exact H|].
    apply size_checked_nonempty. exact H.
  - intros b n H. destruct (size_checked_ok b n H) as [Hn Hd].
    split; [rewrite Hn; apply Hprod|]. split; [exact Hn|]. split; [|exact Hd].
    unfold Box.size_checked in H.
    repeat match type of H with
           | bind ?c _ = Ok _ => destruct c; cbn [bind] in H; [|discriminate H]
           end.
    apply int_result_ok in H. destruct H as [E H]. rewrite E. exact H.
  - exists (Box.mk (IntVect.mk 0 0 0) (IntVect.mk 2047 2047 1023)).
    repeat split; reflexivity.
  - exists (Box.mk (IntVect.mk 2 2 0) (IntVect.mk 0 0 0)), 1.
    repeat split; reflexivity.
  - intros a_lo a_hi. unfold Box.define. rewrite Box_isEmpty_le. cbn.
    destruct (IntVect.le a_lo a_hi); reflexivity.
Qed.

(** X6.  [Box::operator&=] computes the intersection: a point is in the result
    exactly when it is in both boxes, so the result is empty exactly when
    the boxes share no point.  The operation is commutative, associative
    and idempotent, its result is included in both operands in the sense
    of [Box::contains(const Box&)], and intersecting with a box that
    includes the other returns the included one. *)
Theorem Box_intersect_spec :
  (forall (a b : Box.t) (p : IntVect.t),
     Box.contains (Box.intersect a b) p = Box.contains a p && Box.contains b p)
  /\ (forall a b : Box.t,
        Box.isEmpty (Box.intersect a b) = true
        <-> forall p : IntVect.t, Box.contains a p = true -> Box.contains b p = false)
  /\ (forall a b : Box.t, Box.intersect a b = Box.intersect b a)
  /\ (forall a b c : Box.t,
        Box.intersect (Box.intersect a b) c = Box.intersect a (Box.intersect b c))
  /\ (forall a : Box.t, Box.intersect a a = a)
  /\ (forall a b : Box.t,
        Box.contains_box a (Box.intersect a b) = true
        /\ Box.contains_box b (Box.intersect a b) = true)
  /\ (forall a b : Box.t,
        Box.contains_box a b = true -> Box.intersect a b = b).
Proof.
  assert (Hmem : forall (a b : Box.t) (p : IntVect.t),
            Box.contains (Box.intersect a b) p = Box.contains a p && Box.contains b p).
  { intros a b p. apply bool_eq_iff.
    rewrite andb_true_iff, !Box_contains_spec. unfold Box.intersect. cbn. lia. }
  split; [exact Hmem|]. split; [|split; [|split; [|split; [|split]]]].
  - intros a b. rewrite Box_isEmpty_no_point. split.
    + intros H p Ha. specialize (H p). rewrite Hmem, Ha in H. exact H.
    + intros H p. rewrite Hmem. destruct (Box.contains a p) eqn:Ha; [|reflexivity].
      cbn. apply H. exact Ha.
  - intros a b. unfold Box.intersect, IntVect.max, IntVect.min. f_equal; f_equal; lia.
  - intros a b c. unfold Box.intersect, IntVect.max, IntVect.min. cbn.
    f_equal; f_equal; lia.
  - intros [[l0 l1 l2] [h0 h1 h2]]. unfold Box.intersect, IntVect.max, IntVect.min.
    cbn. f_equal; f_equal; lia.
  - intros a b. unfold Box.contains_box. rewrite !andb_true_iff, !IntVect_le_spec.
    unfold Box.intersect. cbn. lia.
  - intros a [[l0 l1 l2] [h0 h1 h2]]. unfold Box.contains_box.
    rewrite andb_true_iff, !IntVect_le_spec. cbn. intros H.
    unfold Box.intersect, IntVect.max, IntVect.min. cbn. f_equal; f_equal; lia.
Qed.

(** X7.  [Box::contains(const Box&)] compares corners.  It is a partial order
    whose equality is [Box::operator==]; when it holds every point of the
    argument is in the box, and for an argument that is not empty the
    converse holds.  An empty argument is not included in every box that
    has points. *)
Theorem Box_contains_box_spec :
  (forall (b c : Box.t) (p : IntVect.t),
     Box.contains_box b c = true -> Box.contains c p = true -> Box.contains b p = true)
  /\ (forall b c : Box.t,
        Box.isEmpty c = false ->
        (forall p : IntVect.t, Box.contains c p = true -> Box.contains b p = true) ->
        Box.contains_box b c = true)
  /\ (forall b : Box.t, Box.contains_box b b = true)
  /\ (forall a b c : Box.t,
        Box.contains_box a b = true -> Box.contains_box b c = true ->
        Box.contains_box a c = true)
  /\ (forall a b : Box.t,
        Box.contains_box a b && Box.contains_box b a = Box.eqb a b)
  /\ (forall a b : Box.t, Box.eqb a b = true <-> a = b)
  /\ (forall a b : Box.t, Box.neb a b = negb (Box.eqb a b))
  /\ (exists b c : Box.t,
        Box.isEmpty b = false /\ Box.contains_box b c = false
        /\ forall p : IntVect.t, Box.contains c p = false).
Proof.
  split; [|split; [|split; [|split; [|split; [|split; [|split]]]]]].
  - intros b c p H Hp. unfold Box.contains_box in H.
    apply andb_true_iff in H. rewrite !IntVect_le_spec in H.
    apply Box_contains_spec in Hp. apply Box_contains_spec. lia.
  - intros b c Hne H. destruct (Box_nonempty_corners c Hne) as (Hlo & Hhi).
    apply H in Hlo, Hhi. apply Box_contains_spec in Hlo, Hhi.
    unfold Box.contains_box. rewrite andb_true_iff, !IntVect_le_spec. lia.
  - intros b. unfold Box.contains_box. rewrite andb_true_iff, !IntVect_le_spec. lia.
  - intros a b c. unfold Box.contains_box.
    rewrite !andb_true_iff, !IntVect_le_spec. lia.
  - intros a b. apply bool_eq_iff. unfold Box.contains_box, Box.eqb, IntVect.eqb.
    rewrite !andb_true_iff, !IntVect_le_spec, !Z.eqb_eq. lia.
  - intros [lo hi] [lo' hi']. unfold Box.eqb. cbn.
    rewrite andb_true_iff, !IntVect_eqb_spec. split.
    + intros [-> ->]. reflexivity.
    + intros H. injection H as -> ->. auto.
  - intros a b. unfold Box.neb, Box.eqb, IntVect.neb, IntVect.eqb.
    rewrite !negb_andb. reflexivity.
  - exists (Box.mk (IntVect.mk 5 5 5) (IntVect.mk 6 6 6)),
           (Box.mk (IntVect.mk 1 1 1) (IntVect.mk 0 0 0)).
    split; [reflexivity|]. split; [reflexivity|].
    apply Box_isEmpty_no_point. reflexivity.
Qed.

(** ** Box: growing, shifting, adjacent cells *)



Tactic Notation "zsimpl" "in" hyp(H) :=
  cbn -[Z.add Z.sub Z.mul Z.opp Z.abs Z.min Z.max Z.quot Z.rem] in H.








(** ** Box: linear indices beyond the box *)




(** ** BoxIterator: the traversal of a box *)














(** ** CudaFab: the view and the buffer it aliases *)











(** ** BaseFab and CudaFab: the host array and its device view *)



(** ** SlabFab: rotations add up *)







(** ** SlabFab: the cache and its storage *)






